(** * sea/cli.py: the task registry, the [invoke] command and [new]

    A shallow embedding of [TaskOption], [TaskManager] and [TaskCmd] of
    [src/sea/cli.py].  Python objects that the code shares and mutates
    (function objects carrying an [opts] attribute, the list objects that
    attribute points to, the process-wide [taskm.tasks] dictionary, the
    modules of [sys.modules]) live in an explicit store; code that raises is
    written in a state-and-exception monad, where an exception keeps the
    store as the failing statement left it. *)

From Stdlib Require Import ZArith Ascii String.
From stdpp Require Import gmap strings list fin_maps.

Open Scope string_scope.
Open Scope list_scope.

(** ** Python values and exceptions *)

Inductive Value :=
| VNone
| VBool (b : bool)
| VInt (z : Z)
| VStr (s : string)
| VBuiltin (name : string).

(** A keyword-argument dictionary ([**kwargs], [vars(namespace)]). *)
Definition Kwargs := list (string * Value).

Inductive Exn :=
| KeyError (key : string)
| FileNotFoundError (path : string)
| NotADirectoryError (path : string)
| ImportError (name : string)
| TypeError (msg : string)
| SystemExit (status : Z)
| Raised (cls msg : string).

Inductive Result (A : Type) :=
| OK (a : A)
| Raise (e : Exn).
Arguments OK {A} a.
Arguments Raise {A} e.

(** ** String operations used by the code *)

Module PyStr.

(** [s.endswith(suffix)] *)
Definition endswith (s suffix : string) : bool :=
  let n := String.length s in
  let k := String.length suffix in
  (k <=? n)%nat && String.eqb (substring (n - k) k s) suffix.

(** [s.startswith(prefix)] *)
Fixpoint startswith (s prefix : string) {struct prefix} : bool :=
  match prefix, s with
  | EmptyString, _ => true
  | String c prefix', String d s' => Ascii.eqb d c && startswith s' prefix'
  | String _ _, EmptyString => false
  end.

(** [s[:-k]] *)
Definition drop_last (k : nat) (s : string) : string :=
  substring 0 (String.length s - k) s.

(** [s[:k]] and [s[k:]] *)
Definition take (k : nat) (s : string) : string :=
  substring 0 (Nat.min k (String.length s)) s.
Definition drop (k : nat) (s : string) : string :=
  substring k (String.length s - k) s.

(** [s.split(sep, 1)] for a one-character separator, when [sep in s]. *)
Fixpoint split_once (sep : ascii) (s : string) : option (string * string) :=
  match s with
  | EmptyString => None
  | String c rest =>
      if Ascii.eqb c sep then Some (EmptyString, rest)
      else match split_once sep rest with
           | Some (a, b) => Some (String c a, b)
           | None => None
           end
  end.

End PyStr.

(** ** The file system, as [os.listdir] and [os.path.isfile] see it *)

Inductive Node :=
| RegularFile
| Directory (entries : list string).

Module OsPath.

(** [os.path.join(a, b)] (posixpath) for two components. *)
Definition join (a b : string) : string :=
  if PyStr.startswith b "/" then b
  else if String.eqb a "" || PyStr.endswith a "/" then a +:+ b
  else a +:+ "/" +:+ b.

(** [os.path.isfile(path)] *)
Definition isfile (fs : gmap string Node) (path : string) : bool :=
  match fs !! path with
  | Some RegularFile => true
  | _ => false
  end.

End OsPath.

(** [os.listdir(path)]: the entries in the order the file system returns
    them; a missing path and a non-directory raise. *)
Definition os_listdir (fs : gmap string Node) (path : string) : Result (list string) :=
  match fs !! path with
  | Some (Directory entries) => OK entries
  | Some RegularFile => Raise (NotADirectoryError path)
  | None => Raise (FileNotFoundError path)
  end.

(** ** [class TaskOption] *)

Record TaskOption := {
  args : list string;
  kwargs : Kwargs
}.

(** ** The object store *)

(** A function object: the module that defined it ([__module__]), what
    calling it does, and its [opts] attribute when set, a reference to a
    list object. *)
Record FuncObj := {
  f_module : string;
  f_body : Kwargs -> Result Value;
  f_opts : option nat
}.

Inductive ParserError :=
| Unrecognized (argv : list string)
| IgnoredExplicit (option_string arg : string)
| OtherError (msg : string).

(** What the command does that can be observed from outside, in order. *)
Inductive Event :=
| EvLoadEntryPoint (module : string)
| EvImport (name : string)
| EvNewParser (prog : string)
| EvAddArgument (opt : TaskOption)
| EvParseArgs (extra : list string)
| EvPrintHelp
| EvParserError (err : ParserError)
| EvCall (func : nat) (kw : Kwargs).

(** The store: the function objects and the list objects with the next
    free reference of each, the dictionary [taskm.tasks], the names of the
    modules in [sys.modules], latest first, and the events so far. *)
Record State := {
  funcs : gmap nat FuncObj;
  next_func : nat;
  lists : gmap nat (list TaskOption);
  next_list : nat;
  tasks : gmap string nat;
  sys_modules : list string;
  trace : list Event
}.

Definition set_funcs (g : gmap nat FuncObj → gmap nat FuncObj) (st : State) : State :=
  {| funcs := g (funcs st); next_func := next_func st; lists := lists st;
     next_list := next_list st; tasks := tasks st;
     sys_modules := sys_modules st; trace := trace st |}.

Definition set_lists (g : gmap nat (list TaskOption) → gmap nat (list TaskOption))
    (st : State) : State :=
  {| funcs := funcs st; next_func := next_func st; lists := g (lists st);
     next_list := next_list st; tasks := tasks st;
     sys_modules := sys_modules st; trace := trace st |}.

Definition set_tasks (g : gmap string nat → gmap string nat) (st : State) : State :=
  {| funcs := funcs st; next_func := next_func st; lists := lists st;
     next_list := next_list st; tasks := g (tasks st);
     sys_modules := sys_modules st; trace := trace st |}.

Definition set_sys_modules (g : list string → list string) (st : State) : State :=
  {| funcs := funcs st; next_func := next_func st; lists := lists st;
     next_list := next_list st; tasks := tasks st;
     sys_modules := g (sys_modules st); trace := trace st |}.

Definition add_event (ev : Event) (st : State) : State :=
  {| funcs := funcs st; next_func := next_func st; lists := lists st;
     next_list := next_list st; tasks := tasks st;
     sys_modules := sys_modules st; trace := trace st ++ [ev] |}.

(** Several events at once. *)
Definition add_events (evs : list Event) (st : State) : State :=
  {| funcs := funcs st; next_func := next_func st; lists := lists st;
     next_list := next_list st; tasks := tasks st;
     sys_modules := sys_modules st; trace := trace st ++ evs |}.

(** The calls and the [add_argument]s among some events. *)
Definition calls_of (evs : list Event) : list (nat * Kwargs) :=
  omap (λ ev, match ev with EvCall f kw => Some (f, kw) | _ => None end) evs.

Definition added_arguments (evs : list Event) : list TaskOption :=
  omap (λ ev, match ev with EvAddArgument o => Some o | _ => None end) evs.

Definition imports_of (evs : list Event) : list string :=
  omap (λ ev, match ev with EvImport n => Some n | _ => None end) evs.

(** The state of a fresh interpreter after [taskm = TaskManager()]. *)
Definition init : State :=
  {| funcs := ∅; next_func := 0; lists := ∅; next_list := 0; tasks := ∅;
     sys_modules := []; trace := [] |}.

(** ** The monad of statements *)

Definition M (A : Type) : Type := State → Result A * State.

Definition ret {A} (a : A) : M A := λ st, (OK a, st).
Definition raise {A} (e : Exn) : M A := λ st, (Raise e, st).
Definition bind {A B} (m : M A) (k : A → M B) : M B :=
  λ st, match m st with
        | (OK a, st') => k a st'
        | (Raise e, st') => (Raise e, st')
        end.
Definition lift {A} (r : Result A) : M A := λ st, (r, st).
Definition log (ev : Event) : M unit := λ st, (OK tt, add_event ev st).

Global Instance M_ret : MRet M := @ret.
Global Instance M_bind : MBind M := λ A B k m, bind m k.

(** [for x in xs: body(x)] *)
Fixpoint for_ {A} (xs : list A) (body : A → M unit) : M unit :=
  match xs with
  | [] => ret tt
  | x :: rest => body x ;; for_ rest body
  end.

(** ** Store primitives *)

(** Evaluating the list display [[]] allocates a new, empty list object. *)
Definition new_list : M nat :=
  λ st, let l := next_list st in
        (OK l,
         {| funcs := funcs st; next_func := next_func st;
            lists := <[l := []]> (lists st); next_list := S l;
            tasks := tasks st; sys_modules := sys_modules st; trace := trace st |}).

(** The contents of a list object. *)
Definition list_at (st : State) (l : nat) : list TaskOption :=
  default [] (lists st !! l).

Definition read_list (l : nat) : M (list TaskOption) := λ st, (OK (list_at st l), st).

(** [lst.append(x)] *)
Definition list_append (l : nat) (x : TaskOption) : M unit :=
  λ st, (OK tt, set_lists (<[l := list_at st l ++ [x]]>) st).

(** [getattr(func, 'opts', [])]: the list object the attribute refers to,
    or else the empty list of the default.  Python builds the default in
    either case; a list that is not the result is garbage at once, so the
    store gets a new list only when the attribute is missing. *)
Definition getattr_opts (func : nat) : M nat :=
  λ st, match funcs st !! func ≫= f_opts with
        | Some l => (OK l, st)
        | None => new_list st
        end.

(** The value of [getattr(func, 'opts', [])] in [st]. *)
Definition opts_of (st : State) (func : nat) : list TaskOption :=
  match funcs st !! func ≫= f_opts with
  | Some l => list_at st l
  | None => []
  end.

(** [func.opts = l] *)
Definition setattr_opts (func l : nat) : M unit :=
  λ st, (OK tt,
         set_funcs (alter (λ fo, {| f_module := f_module fo; f_body := f_body fo;
                                    f_opts := Some l |}) func) st).

(** Executing [def] in module [modname]: a new function object without
    attributes. *)
Definition new_function (modname : string) (body : Kwargs → Result Value) : M nat :=
  λ st, let f := next_func st in
        (OK f,
         {| funcs := <[f := {| f_module := modname; f_body := body; f_opts := None |}]>
                       (funcs st);
            next_func := S f; lists := lists st; next_list := next_list st;
            tasks := tasks st; sys_modules := sys_modules st; trace := trace st |}).

(** ** [class TaskManager], for the one instance [taskm] *)

Module TaskManager.

(** [taskm.task(name)(func)]: the wrapper stores [func] under [name] and
    returns it. *)
Definition task (name : string) (func : nat) : M nat :=
  λ st, (OK func, set_tasks (<[name := func]>) st).

(** [taskm.option(...)(func)], with [o] the [TaskOption] built from the
    arguments of [taskm.option]: the wrapper takes the list of the function
    or a new one, attaches it when it is empty, appends the descriptor and
    returns the function. *)
Definition option_ (o : TaskOption) (func : nat) : M nat :=
  opts ← getattr_opts func ;
  xs ← read_list opts ;
  (match xs with
   | [] => setattr_opts func opts
   | _ => ret tt
   end) ;;
  list_append opts o ;;
  ret func.

(** [taskm[name]]: [self.tasks[name]] raises [KeyError] on a missing key. *)
Definition getitem (name : string) : M nat :=
  λ st, match tasks st !! name with
        | Some func => (OK func, st)
        | None => (Raise (KeyError name), st)
        end.

End TaskManager.

(** ** Task modules

    What a module that defines tasks does when it is executed: function
    definitions decorated with [@taskm.task(name)] and [@taskm.option(...)],
    and statements that raise. *)

Inductive Decorator :=
| DTask (name : string)
| DOption (o : TaskOption).

Inductive Stmt :=
| Def (decorators : list Decorator) (body : Kwargs → Result Value)
| RaiseStmt (e : Exn).

(** The descriptors among some decorators, in textual order. *)
Definition options_of (ds : list Decorator) : list TaskOption :=
  omap (λ d, match d with DOption o => Some o | DTask _ => None end) ds.

(** The registry after the [@taskm.task] decorators among [ds] were applied
    to [func]. *)
Definition registered (ds : list Decorator) (func : nat) (t : gmap string nat)
    : gmap string nat :=
  foldr (λ d t, match d with DTask n => <[n := func]> t | DOption _ => t end) t ds.

Definition apply_decorator (d : Decorator) (func : nat) : M nat :=
  match d with
  | DTask name => TaskManager.task name func
  | DOption o => TaskManager.option_ o func
  end.

(** Decorators are written top to bottom and applied bottom to top:
    [@d1 @d2 def f] binds [f = d1(d2(f))]. *)
Fixpoint apply_decorators (ds : list Decorator) (func : nat) : M nat :=
  match ds with
  | [] => ret func
  | d :: rest => f ← apply_decorators rest func ; apply_decorator d f
  end.

Definition exec_stmt (modname : string) (s : Stmt) : M unit :=
  match s with
  | Def ds body => f ← new_function modname body ; apply_decorators ds f ;; ret tt
  | RaiseStmt e => raise e
  end.

Definition exec_module (modname : string) (body : list Stmt) : M unit :=
  for_ body (exec_stmt modname).

(** The module registers a task under [name]. *)
Definition registers (name : string) (body : list Stmt) : Prop :=
  ∃ ds b, Def ds b ∈ body ∧ DTask name ∈ ds.

(** The entry under [name] is a function object created at or after [n0]
    by a module whose name satisfies [Q]. *)
Definition registered_by (name : string) (Q : string → Prop) (n0 : nat)
    (st : State) : Prop :=
  ∃ f md, tasks st !! name = Some f
          ∧ f_module <$> funcs st !! f = Some md
          ∧ Q md
          ∧ (n0 ≤ f < next_func st)%nat.

(** ** [argparse], as far as [TaskCmd.run] uses it

    [run] creates the parser with [argparse.ArgumentParser('seatask')], so
    with the defaults of the library: [-] as the prefix character,
    abbreviations allowed, and the help action declared under [-h] and
    [--help].  How argument strings are parsed when the task has no option
    follows [_parse_known_args], [_parse_optional], [_get_option_tuples] and
    [consume_optional] of CPython 3.11. *)

Module Argparse.

(** The arguments added by [add_argument], in call order.  The constructor
    itself registers the help action under [-h] and [--help]. *)
Record ArgumentParser := {
  prog : string;
  declared : list TaskOption
}.

Inductive ParseOutcome :=
| Parsed (ns : Kwargs)
| HelpExit
| UsageError (err : ParserError)
| ParseRaises (e : Exn).

(** [_option_string_actions] of a parser without declared arguments. *)
Definition option_strings : list string := ["-h"; "--help"].

Definition is_option_string (s : string) : bool :=
  existsb (String.eqb s) option_strings.

(** [arg_string[i] in self.prefix_chars] *)
Definition prefix_char_at (i : nat) (s : string) : bool :=
  match String.get i s with
  | Some c => Ascii.eqb c "-"
  | None => false
  end.

(** [_get_option_tuples]: the option strings [option_string] may
    abbreviate, each with its explicit argument. *)
Definition get_option_tuples (option_string : string)
    : list (string * option string) :=
  if prefix_char_at 0 option_string && prefix_char_at 1 option_string then
    let '(option_prefix, explicit_arg) :=
      match PyStr.split_once "=" option_string with
      | Some (a, b) => (a, Some b)
      | None => (option_string, None)
      end in
    omap (λ os, if PyStr.startswith os option_prefix
                then Some (os, explicit_arg) else None) option_strings
  else
    let short_option_prefix := PyStr.take 2 option_string in
    let short_explicit_arg := PyStr.drop 2 option_string in
    omap (λ os, if String.eqb os short_option_prefix
                then Some (os, Some short_explicit_arg)
                else if PyStr.startswith os option_string
                then Some (os, None) else None) option_strings.

(** What [_parse_optional] makes of one argument string.  [NoAction]
    stands for both [None] (a positional) and [(None, arg_string, None)]
    (an optional no action knows): on a parser without declared arguments
    either is left over. *)
Inductive Optional :=
| NoAction
| Action (option_string : string) (explicit_arg : option string)
| Ambiguous (matches : list string).

Definition parse_optional (arg_string : string) : Optional :=
  if String.eqb arg_string "" then NoAction
  else if negb (prefix_char_at 0 arg_string) then NoAction
  else if is_option_string arg_string then Action arg_string None
  else if (String.length arg_string =? 1)%nat then NoAction
  else
    match
      match PyStr.split_once "=" arg_string with
      | Some (os, explicit_arg) =>
          if is_option_string os then Some (Action os (Some explicit_arg)) else None
      | None => None
      end
    with
    | Some r => r
    | None =>
        match get_option_tuples arg_string with
        | [] => NoAction
        | [(os, explicit_arg)] => Action os explicit_arg
        | many => Ambiguous (fst <$> many)
        end
    end.

(** The loop of [consume_optional] for the help action (which takes no
    argument) while [explicit_arg] is not [None].  [None]: the loop is left
    through [break] and the action is taken. *)
Fixpoint consume_explicit (option_string explicit_arg : string) : option ParserError :=
  match explicit_arg with
  | String c rest =>
      if negb (prefix_char_at 1 option_string) then
        let option_string' := String "-" (String c EmptyString) in
        if is_option_string option_string' then
          match rest with
          | EmptyString => None
          | _ => consume_explicit option_string' rest
          end
        else Some (IgnoredExplicit option_string explicit_arg)
      else Some (IgnoredExplicit option_string explicit_arg)
  | EmptyString => Some (IgnoredExplicit option_string explicit_arg)
  end.

(** First pass of [_parse_known_args]: every argument string up to the
    first [--] goes through [_parse_optional]; [--] and what follows it are
    no options. *)
Fixpoint classify (arg_strings : list string) : list (string * Optional) :=
  match arg_strings with
  | [] => []
  | s :: rest =>
      if String.eqb s "--" then (λ a, (a, NoAction)) <$> arg_strings
      else (s, parse_optional s) :: classify rest
  end.

Fixpoint first_ambiguous (items : list (string * Optional))
    : option (string * list string) :=
  match items with
  | [] => None
  | (s, Ambiguous ms) :: _ => Some (s, ms)
  | _ :: rest => first_ambiguous rest
  end.

(** Second pass: the argument strings are consumed from left to right.  No
    positional is declared, so what is not the help option is an extra;
    the help action prints the help and exits as soon as it is taken.
    [inl extras]: the end of the argument strings was reached. *)
Fixpoint consume (items : list (string * Optional)) (extras : list string)
    : list string + ParseOutcome :=
  match items with
  | [] => inl extras
  | (s, Action os None) :: _ => inr HelpExit
  | (s, Action os (Some explicit_arg)) :: _ =>
      match consume_explicit os explicit_arg with
      | None => inr HelpExit
      | Some err => inr (UsageError err)
      end
  | (s, _) :: rest => consume rest (extras ++ [s])
  end.

(** [parse_args] on a parser without declared arguments: the namespace has
    no attribute, and left-over argument strings are an error. *)
Definition parse_args_bare (arg_strings : list string) : ParseOutcome :=
  let items := classify arg_strings in
  match first_ambiguous items with
  | Some (s, ms) => UsageError (OtherError ("ambiguous option: " +:+ s))
  | None =>
      match consume items [] with
      | inl [] => Parsed []
      | inl extras => UsageError (Unrecognized extras)
      | inr exit => exit
      end
  end.

(** The argument strings that [_parse_optional] looks at: those before the
    first [--]. *)
Fixpoint before_dashes (arg_strings : list string) : list string :=
  match arg_strings with
  | [] => []
  | s :: rest => if String.eqb s "--" then [] else s :: before_dashes rest
  end.

(** [_parse_optional] takes [s] for the help option. *)
Definition selects_help (s : string) : bool :=
  match parse_optional s with
  | NoAction => false
  | _ => true
  end.

(** The part of [s] before the first [=], all of [s] without one. *)
Definition before_equals (s : string) : string :=
  match PyStr.split_once "=" s with
  | Some (a, _) => a
  | None => s
  end.

(** [s] begins with [-h], or it begins with [--] and [--help] begins with
    what [s] has before its first [=]: the help option, an abbreviation of
    [--help], or one of these with a value attached. *)
Definition help_like (s : string) : bool :=
  PyStr.startswith s "-h"
  || (PyStr.startswith s "--" && PyStr.startswith "--help" (before_equals s)).

(** No argument string before the first [--] looks like the help option. *)
Definition no_help (arg_strings : list string) : bool :=
  forallb (λ s, negb (help_like s)) (before_dashes arg_strings).

End Argparse.

(** ** The environment of the command *)

(** The application handle: [app.root_path]. *)
Record App := { root_path : string }.

(** The parsed top-level arguments: [args.workdir] and [args.task]. *)
Record Args := {
  args_workdir : string;
  args_task : string
}.

(** What the command finds around it.
    - [create_app]: [sea.create_app], which is not part of [cli.py]; it
      yields the application handle or raises.
    - [entry_points]: the modules of the entry points that
      [pkg_resources.iter_entry_points('sea.tasks')] yields, in order.
    - [modules]: the importable modules, by dotted name.
    - [fs]: the file system.
    - [add_argument_error]: the exception [parser.add_argument] raises for
      a descriptor, given the arguments declared so far, if it rejects it.
    - [parse_declared]: what [parse_args] does on a parser with at least one
      declared argument. *)
Record Env := {
  create_app : string → Result App;
  entry_points : list string;
  modules : gmap string (list Stmt);
  fs : gmap string Node;
  add_argument_error : list TaskOption → TaskOption → option Exn;
  parse_declared : list TaskOption → list string → Argparse.ParseOutcome
}.

Section Cli.

Context (env : Env).

(** Importing a module.  A module that is in [sys.modules] is not executed
    again.  A module that is not there raises [ImportError].  Else the
    module is entered in [sys.modules] and its body is executed; when the
    body raises, the module is taken out of [sys.modules] again. *)
Definition import_module (name : string) : M unit :=
  λ st,
    if existsb (String.eqb name) (sys_modules st) then (OK tt, st)
    else match modules env !! name with
         | None => (Raise (ImportError name), st)
         | Some body =>
             match exec_module name body (set_sys_modules (cons name) st) with
             | (OK _, st') => (OK tt, st')
             | (Raise e, st') =>
                 (Raise e,
                  set_sys_modules (List.filter (λ n, negb (String.eqb n name))) st')
             end
         end.

(** Modelled from the spec: [sea.utils.import_string] is not part of
    [cli.py]; it imports the module of the given dotted path, which
    triggers the registrations of that module. *)
Definition import_string (name : string) : M unit :=
  log (EvImport name) ;; import_module name.

(** [ep.load()]: loading an entry point imports its module. *)
Definition ep_load (module : string) : M unit :=
  log (EvLoadEntryPoint module) ;; import_module module.

(** [argparse.ArgumentParser(prog)] *)
Definition new_parser (prog : string) : M Argparse.ArgumentParser :=
  log (EvNewParser prog) ;;
  ret {| Argparse.prog := prog; Argparse.declared := [] |}.

(** [parser.add_argument] with the arguments stored in [opt] *)
Definition add_argument (parser : Argparse.ArgumentParser) (opt : TaskOption)
    : M Argparse.ArgumentParser :=
  log (EvAddArgument opt) ;;
  match add_argument_error env (Argparse.declared parser) opt with
  | Some e => raise e
  | None => ret {| Argparse.prog := Argparse.prog parser;
                   Argparse.declared := Argparse.declared parser ++ [opt] |}
  end.

Definition parse_outcome (parser : Argparse.ArgumentParser) (extra : list string)
    : Argparse.ParseOutcome :=
  match Argparse.declared parser with
  | [] => Argparse.parse_args_bare extra
  | ds => parse_declared env ds extra
  end.

(** [vars(parser.parse_args(extra))]: a usage error prints the message and
    exits with status 2, the help action prints the help and exits with
    status 0. *)
Definition parse_args (parser : Argparse.ArgumentParser) (extra : list string)
    : M Kwargs :=
  log (EvParseArgs extra) ;;
  match parse_outcome parser extra with
  | Argparse.Parsed ns => ret ns
  | Argparse.HelpExit => log EvPrintHelp ;; raise (SystemExit 0)
  | Argparse.UsageError err => log (EvParserError err) ;; raise (SystemExit 2)
  | Argparse.ParseRaises e => raise e
  end.

(** What the body of the function object [func] yields on [kw]. *)
Definition apply_function (func : nat) (kw : Kwargs) : M Value :=
  λ st, match funcs st !! func with
        | Some fo => (f_body fo kw, st)
        | None => (Raise (TypeError "object is not callable"), st)
        end.

(** Calling [func] with the keyword arguments [kw] *)
Definition call (func : nat) (kw : Kwargs) : M Value :=
  log (EvCall func kw) ;; apply_function func kw.

(** ** [class TaskCmd] *)

Definition _load_plugin_tasks : M bool :=
  for_ (entry_points env) ep_load ;;
  ret true.

(** The test of lines 171-173 on a directory entry [m]. *)
Definition is_task_file (root m : string) : bool :=
  negb (String.eqb m "__init__.py")
  && PyStr.endswith m ".py"
  && OsPath.isfile (fs env) (OsPath.join root m).

Definition module_path (m : string) : string := "tasks." +:+ PyStr.drop_last 3 m.

(** The modules the loop of [_load_app_tasks] imports for the entries [ms]
    when no import raises. *)
Definition task_modules (root : string) (ms : list string) : list string :=
  module_path <$> List.filter (is_task_file root) ms.

(** The body of the [for] loop of lines 170-174. *)
Definition load_entry (root m : string) : M unit :=
  if is_task_file root m then import_string (module_path m) else ret tt.

(** [root] of line 169. *)
Definition tasks_root (app : App) : string := OsPath.join (root_path app) "tasks".

Definition _load_app_tasks (app : App) : M bool :=
  let root := tasks_root app in
  ms ← lift (os_listdir (fs env) root) ;
  for_ ms (load_entry root) ;;
  ret true.

(** The [for] loop of lines 192-193. *)
Fixpoint add_arguments (parser : Argparse.ArgumentParser) (opts : list TaskOption)
    : M Argparse.ArgumentParser :=
  match opts with
  | [] => ret parser
  | opt :: rest => parser' ← add_argument parser opt ; add_arguments parser' rest
  end.

(** Lines 188-194 of [run]: the dispatcher. *)
Definition invoke (name : string) (extra : list string) : M Value :=
  func ← TaskManager.getitem name ;
  opts_ref ← getattr_opts func ;
  opts ← read_list opts_ref ;
  parser ← new_parser "seatask" ;
  parser ← add_arguments parser opts ;
  kw ← parse_args parser extra ;
  call func kw.

Definition run (args : Args) (extra : list string) : M Value :=
  app ← lift (create_app env (args_workdir args)) ;
  _load_plugin_tasks ;;
  _load_app_tasks app ;;
  invoke (args_task args) extra.

(** ** What the dispatcher does, as a function of what it finds *)

(** The arguments declared once the loop of lines 192-193 is through, or
    the exception of the first [add_argument] that raises. *)
Fixpoint add_result (declared opts : list TaskOption) : Result (list TaskOption) :=
  match opts with
  | [] => OK declared
  | o :: rest =>
      match add_argument_error env declared o with
      | Some e => Raise e
      | None => add_result (declared ++ [o]) rest
      end
  end.

(** How many times the loop calls [add_argument]. *)
Fixpoint add_calls (declared opts : list TaskOption) : nat :=
  match opts with
  | [] => 0
  | o :: rest =>
      match add_argument_error env declared o with
      | Some _ => 1
      | None => S (add_calls (declared ++ [o]) rest)
      end
  end.

(** What the dispatcher yields and the events it adds, once the function
    [func] was found under the name: from the body of the function, if it
    has one, and its options. *)
Definition dispatch_outcome (func : nat) (body : option (Kwargs → Result Value))
    (opts : list TaskOption) (extra : list string) : Result Value * list Event :=
  let built :=
    EvNewParser "seatask" :: (EvAddArgument <$> take (add_calls [] opts) opts) in
  match add_result [] opts with
  | Raise e => (Raise e, built)
  | OK ds =>
      match parse_outcome {| Argparse.prog := "seatask";
                             Argparse.declared := ds |} extra with
      | Argparse.Parsed ns =>
          (match body with
           | Some b => b ns
           | None => Raise (TypeError "object is not callable")
           end,
           built ++ [EvParseArgs extra; EvCall func ns])
      | Argparse.HelpExit =>
          (Raise (SystemExit 0), built ++ [EvParseArgs extra; EvPrintHelp])
      | Argparse.UsageError err =>
          (Raise (SystemExit 2), built ++ [EvParseArgs extra; EvParserError err])
      | Argparse.ParseRaises e => (Raise e, built ++ [EvParseArgs extra])
      end
  end.

End Cli.

(** ** A sample installation

    One plugin and an application under [/srv/app], both defining a task
    [build], and an application under [/srv/broken] whose first task file
    raises when it is loaded. *)

Module Sample.

Definition opt_x : TaskOption :=
  {| args := ["--x"]; kwargs := [("type", VBuiltin "int"); ("required", VBool true)] |}.

Definition opt_verbose : TaskOption :=
  {| args := ["-v"; "--verbose"]; kwargs := [("action", VStr "store_true")] |}.

Definition plugin_build (kw : Kwargs) : Result Value := OK (VStr "plugin build").
Definition app_build (kw : Kwargs) : Result Value := OK (VStr "application build").
Definition deploy (kw : Kwargs) : Result Value :=
  match kw with
  | [] => OK VNone
  | _ => Raise (TypeError "deploy() got an unexpected keyword argument")
  end.

(** A descriptor is rejected when one of its option strings is taken. *)
Definition conflicts (declared : list TaskOption) (o : TaskOption) : option Exn :=
  if existsb (λ a, existsb (String.eqb a)
                     ("-h" :: "--help" :: concat (args <$> declared))) (args o)
  then Some (Raised "ArgumentError" "conflicting option string")
  else None.

(** The one command line the sample parser of [build] accepts. *)
Definition parse (declared : list TaskOption) (extra : list string)
    : Argparse.ParseOutcome :=
  match extra with
  | ["--x"; "5"] => Argparse.Parsed [("x", VInt 5); ("verbose", VBool false)]
  | _ => Argparse.UsageError (OtherError "the following arguments are required: --x")
  end.

Definition env : Env := {|
  create_app wd := OK {| root_path := wd |};
  entry_points := ["seaplugin.tasks"];
  modules := list_to_map [
    ("seaplugin.tasks", [Def [DTask "build"; DOption opt_x] plugin_build]);
    ("tasks.build", [Def [DTask "build"; DOption opt_x; DOption opt_verbose] app_build]);
    ("tasks.deploy", [Def [DTask "deploy"] deploy]);
    ("tasks.a_bad", [Def [DTask "early"] deploy;
                     RaiseStmt (Raised "ValueError" "bad settings")]);
    ("tasks.b_good", [Def [DTask "good"] deploy])];
  fs := list_to_map [
    ("/srv/app/tasks",
     Directory ["__init__.py"; "build.py"; "notes.txt"; "pkg.py"; "deploy.py"]);
    ("/srv/app/tasks/__init__.py", RegularFile);
    ("/srv/app/tasks/build.py", RegularFile);
    ("/srv/app/tasks/notes.txt", RegularFile);
    ("/srv/app/tasks/pkg.py", Directory []);
    ("/srv/app/tasks/deploy.py", RegularFile);
    ("/srv/broken/tasks", Directory ["a_bad.py"; "b_good.py"]);
    ("/srv/broken/tasks/a_bad.py", RegularFile);
    ("/srv/broken/tasks/b_good.py", RegularFile);
    ("/srv/empty/tasks", Directory [])];
  add_argument_error := conflicts;
  parse_declared := parse
|}.

Definition app : App := {| root_path := "/srv/app" |}.
Definition broken : App := {| root_path := "/srv/broken" |}.

Definition build_args : Args := {| args_workdir := "/srv/app"; args_task := "build" |}.

(** The store once the plugins are loaded, and once the tasks of [app] are
    loaded as well. *)
Definition plugins_loaded : State := (_load_plugin_tasks env init).2.
Definition loaded : State := (_load_app_tasks env app plugins_loaded).2.

End Sample.

(** ** Events of one kind *)

(** The calls of [parse_args] among some events. *)
Definition parse_attempts (evs : list Event) : list (list string) :=
  omap (λ ev, match ev with EvParseArgs extra => Some extra | _ => None end) evs.

(** The entry points loaded among some events. *)
Definition entry_points_loaded (evs : list Event) : list string :=
  omap (λ ev, match ev with EvLoadEntryPoint m => Some m | _ => None end) evs.

(** An application whose task files [first.py] and [second.py] both define
    the task [ship]. *)
Module Shadowing.

Definition first (kw : Kwargs) : Result Value := OK (VStr "first").
Definition second (kw : Kwargs) : Result Value := OK (VStr "second").

Definition env : Env := {|
  create_app wd := OK {| root_path := wd |};
  entry_points := [];
  modules := list_to_map [
    ("tasks.first", [Def [DTask "ship"] first]);
    ("tasks.second", [Def [DTask "ship"; DOption Sample.opt_x] second]);
    ("tasks.third", [Def [DTask "other"] Sample.deploy])];
  fs := list_to_map [
    ("/srv/ship/tasks", Directory ["first.py"; "second.py"; "third.py"]);
    ("/srv/ship/tasks/first.py", RegularFile);
    ("/srv/ship/tasks/second.py", RegularFile);
    ("/srv/ship/tasks/third.py", RegularFile)];
  add_argument_error := Sample.conflicts;
  parse_declared := Sample.parse
|}.

Definition app : App := {| root_path := "/srv/ship" |}.

(** The store once the tasks of [app] are loaded. *)
Definition loaded : State := (_load_app_tasks env app init).2.

End Shadowing.

(** The sample environment with a second plugin that is not installed. *)
Module Faulty.

Definition env : Env := {|
  create_app := create_app Sample.env;
  entry_points := ["seaplugin.tasks"; "seaplugin.missing"; "tasks.b_good"];
  modules := modules Sample.env;
  fs := fs Sample.env;
  add_argument_error := add_argument_error Sample.env;
  parse_declared := parse_declared Sample.env
|}.

End Faulty.

(** ** [os.path] (posixpath), as far as [NewCmd] uses it *)

Module PosixPath.

(** [s.rfind(c)] for a character [c]; [None] stands for [-1]. *)
Fixpoint rfind (c : ascii) (s : string) : option nat :=
  match s with
  | EmptyString => None
  | String d rest =>
      match rfind c rest with
      | Some k => Some (S k)
      | None => if Ascii.eqb d c then Some 0 else None
      end
  end.

(** [s.rstrip('/')] *)
Fixpoint rstrip_sep (s : string) : string :=
  match s with
  | EmptyString => EmptyString
  | String c rest =>
      match rstrip_sep rest with
      | EmptyString => if Ascii.eqb c "/" then EmptyString else String c EmptyString
      | r => String c r
      end
  end.

(** [head == sep*len(head)] *)
Fixpoint all_sep (s : string) : bool :=
  match s with
  | EmptyString => true
  | String c rest => Ascii.eqb c "/" && all_sep rest
  end.

(** [i = p.rfind('/') + 1] *)
Definition after_sep (p : string) : nat :=
  match rfind "/" p with
  | Some k => S k
  | None => 0
  end.

(** [os.path.basename(p)]: [p[i:]] *)
Definition basename (p : string) : string := PyStr.drop (after_sep p) p.

(** [os.path.dirname(p)] *)
Definition dirname (p : string) : string :=
  let head := PyStr.take (after_sep p) p in
  if negb (String.eqb head "") && negb (all_sep head) then rstrip_sep head else head.

(** [p[k] != '.'] for some [k] with [a <= k < b] *)
Definition has_non_dot (p : string) (a b : nat) : bool :=
  existsb (λ k, match String.get k p with
                | Some c => negb (Ascii.eqb c ".")
                | None => true
                end) (seq a (b - a)).

(** [os.path.splitext(p)]: the extension starts at the last dot of the last
    component, leading dots of the component apart. *)
Definition splitext (p : string) : string * string :=
  match rfind "." p with
  | Some dot =>
      if (after_sep p <=? dot)%nat && has_non_dot p (after_sep p) dot
      then (PyStr.take dot p, PyStr.drop dot p)
      else (p, EmptyString)
  | None => (p, EmptyString)
  end.

End PosixPath.

(** ** [class NewCmd] *)

(** What [_gen_project] does to the file system and the terminal. *)
Inductive FsOp :=
| Makedirs (path : string)
| OpenWrite (path : string)
| WriteText (path text : string)
| CopyFile (src dst : string)
| Print (line : string).

(** What [NewCmd] finds around it.
    - [package_dir]: [os.path.dirname(__file__)].
    - [walk]: the directories [os.walk(TMPLPATH)] yields, each with its
      path and the names of its files.
    - [relpath]: [os.path.relpath].
    - [render]: the text of [env.get_template(relfn).render(...)], or the
      exception of jinja2.
    - [os_error]: the exception an operation raises, if it does, after the
      operations done so far. *)
Record Templates := {
  package_dir : string;
  walk : list (string * list string);
  relpath : string → string → string;
  render : string → gmap string Value → Result string;
  os_error : list FsOp → FsOp → option Exn
}.

Module NewCmd.

(** Statements that act on the file system: the operations done so far are
    the state. *)
Definition G (A : Type) : Type := list FsOp → Result A * list FsOp.

Definition gret {A} (a : A) : G A := λ h, (OK a, h).
Definition graise {A} (e : Exn) : G A := λ h, (Raise e, h).
Definition gbind {A B} (m : G A) (k : A → G B) : G B :=
  λ h, match m h with
       | (OK a, h') => k a h'
       | (Raise e, h') => (Raise e, h')
       end.
Definition glift {A} (r : Result A) : G A := λ h, (r, h).

Global Instance G_ret : MRet G := @gret.
Global Instance G_bind : MBind G := λ A B k m, gbind m k.

(** One operation: it raises, or it is done. *)
Definition perform (t : Templates) (op : FsOp) : G unit :=
  λ h, match os_error t h op with
       | Some e => (Raise e, h)
       | None => (OK tt, h ++ [op])
       end.

Fixpoint gfor {A} (xs : list A) (body : A → G unit) : G unit :=
  match xs with
  | [] => mret tt
  | x :: rest => body x ;; gfor rest body
  end.

(** [PACKAGE_DIR], [TMPLPATH] and [IGNORED_FILES] *)
Definition TMPLPATH (t : Templates) : string := OsPath.join (package_dir t) "template".

Definition IGNORED_FILES : list (string * list string) :=
  [("git", ["gitignore"]);
   ("orator", ["configs/development/orator.tpl"; "configs/testing/orator.tpl"]);
   ("consul", [])].

(** The truth value of a value in [if]. *)
Definition truthy (v : Value) : bool :=
  match v with
  | VNone => false
  | VBool b => b
  | VInt z => negb (z =? 0)%Z
  | VStr s => negb (String.eqb s "")
  | VBuiltin _ => true
  end.

(** [getattr(args, name)] on a namespace *)
Definition getattr (args : gmap string Value) (name : string) : Result Value :=
  match args !! name with
  | Some v => OK v
  | None => Raise (Raised "AttributeError" name)
  end.

(** The inner loop of [_build_skip_files]. *)
Fixpoint add_files (tmplpath : string) (files : list string) (skipped : gset string)
    : gset string :=
  match files with
  | [] => skipped
  | f :: rest => add_files tmplpath rest ({[OsPath.join tmplpath f]} ∪ skipped)
  end.

(** The outer loop, over the items of [IGNORED_FILES]. *)
Fixpoint skip_loop (tmplpath : string) (args : gmap string Value)
    (items : list (string * list string)) (skipped : gset string)
    : Result (gset string) :=
  match items with
  | [] => OK skipped
  | (ignore_key, files) :: rest =>
      match getattr args ("skip_" +:+ ignore_key) with
      | Raise e => Raise e
      | OK v =>
          skip_loop tmplpath args rest
            (if truthy v then add_files tmplpath files skipped else skipped)
      end
  end.

Definition _build_skip_files (t : Templates) (args : gmap string Value)
    : Result (gset string) :=
  skip_loop (TMPLPATH t) args IGNORED_FILES ∅.

(** The body of the inner loop of [_gen_project], for the file [fn] of the
    directory [dirpath]. *)
Definition gen_file (t : Templates) (path : string) (skip : gset string)
    (ctx : gmap string Value) (dirpath fn : string) : G unit :=
  let src := OsPath.join dirpath fn in
  if decide (src ∈ skip) then mret tt
  else
    let relfn := relpath t src (TMPLPATH t) in
    let dst := OsPath.join path relfn in
    perform t (Makedirs (PosixPath.dirname dst)) ;;
    (if String.eqb (PosixPath.splitext dst).2 ".tmpl"
     then perform t (OpenWrite (PosixPath.splitext dst).1) ;;
          text ← glift (render t relfn ctx) ;
          perform t (WriteText (PosixPath.splitext dst).1 text)
     else perform t (CopyFile src dst)) ;;
    perform t (Print ("created: " +:+ dst)).

Definition _gen_project (t : Templates) (path : string) (skip : gset string)
    (ctx : gmap string Value) : G unit :=
  gfor (walk t) (λ d : string * list string,
    gfor d.2 (gen_file t path skip ctx d.1)).

(** [run], with [cwd] for [os.getcwd()]. *)
Definition run (t : Templates) (cwd : string) (args : gmap string Value)
    (extra : list string) : G unit :=
  match extra with
  | _ :: _ => graise (Raised "ValueError" "")
  | [] =>
      project ← glift (getattr args "project") ;
      match project with
      | VStr p =>
          let path := OsPath.join cwd p in
          let args' := <["project" := VStr (PosixPath.basename path)]> args in
          skip ← glift (_build_skip_files t args') ;
          _gen_project t path skip args'
      | _ => graise (TypeError "expected str, bytes or os.PathLike object")
      end
  end.

(** The same templates without the files of [skip]. *)
Definition without (skip : gset string) (t : Templates) : Templates :=
  {| package_dir := package_dir t;
     walk := (λ d : string * list string,
                (d.1,
                 List.filter (λ fn, bool_decide (OsPath.join d.1 fn ∉ skip)) d.2))
             <$> walk t;
     relpath := relpath t;
     render := render t;
     os_error := os_error t |}.

(** The source files [os.walk] yields, in order. *)
Definition sources (t : Templates) : list string :=
  concat ((λ d : string * list string, OsPath.join d.1 <$> d.2) <$> walk t).

(** The line [_gen_project] prints for a source file. *)
Definition created_line (t : Templates) (path src : string) : string :=
  "created: " +:+ OsPath.join path (relpath t src (TMPLPATH t)).

(** The lines printed among some operations. *)
Definition printed (ops : list FsOp) : list string :=
  omap (λ op, match op with Print line => Some line | _ => None end) ops.

End NewCmd.

Module NewSample.

(** A package with four template files; nothing fails on the file system,
    and a template renders if the context names the project. *)
Definition templates : Templates := {|
  package_dir := "/pkg/sea";
  walk := [("/pkg/sea/template", ["gitignore"; "README.md.tmpl"]);
           ("/pkg/sea/template/configs/development", ["orator.tpl"; "app.py"])];
  relpath src start := PyStr.drop (S (String.length start)) src;
  render relfn ctx :=
    match ctx !! "project" with
    | Some (VStr p) => OK ("# " +:+ p)
    | _ => Raise (Raised "UndefinedError" "project")
    end;
  os_error _ _ := None
|}.

Definition args : gmap string Value :=
  list_to_map [("project", VStr "demo"); ("skip_git", VBool true);
               ("skip_orator", VBool false); ("skip_consul", VBool true)].

(** [sea new demo/] *)
Definition args_slash : gmap string Value := <["project" := VStr "demo/"]> args.

End NewSample.

(** * Properties *)

(** ** Reasoning about statements *)

Ltac munfold :=
  unfold mbind, M_bind, bind, mret, M_ret, ret, raise, lift, log in *.

Lemma bind_OK {A B} (m : M A) (k : A → M B) st a st' :
  m st = (OK a, st') → (m ≫= k) st = k a st'.
Proof. intros H. munfold. by rewrite H. Qed.

Lemma bind_Raise {A B} (m : M A) (k : A → M B) st e st' :
  m st = (Raise e, st') → (m ≫= k) st = (Raise e, st').
Proof. intros H. munfold. by rewrite H. Qed.

Lemma add_events_nil st : add_events [] st = st.
Proof. destruct st. unfold add_events. simpl. by rewrite app_nil_r. Qed.

Lemma add_events_app evs1 evs2 st :
  add_events evs2 (add_events evs1 st) = add_events (evs1 ++ evs2) st.
Proof. unfold add_events. simpl. by rewrite app_assoc. Qed.

Lemma add_event_events ev st : add_event ev st = add_events [ev] st.
Proof. done. Qed.

(** ** Strings *)

Lemma string_length_append a b :
  String.length (a +:+ b) = (String.length a + String.length b)%nat.
Proof. induction a as [|c a IH]; simpl; [done|by rewrite IH]. Qed.

Lemma substring_all s : substring 0 (String.length s) s = s.
Proof. induction s as [|c s IH]; simpl; [done|by rewrite IH]. Qed.

Lemma substring_append_l a b : substring 0 (String.length a) (a +:+ b) = a.
Proof.
  induction a as [|c a IH]; simpl; [by destruct b|by rewrite IH].
Qed.

Lemma substring_append_r a b k :
  substring (String.length a) k (a +:+ b) = substring 0 k b.
Proof. induction a as [|c a IH]; simpl; [done|apply IH]. Qed.

Lemma substring_split n s :
  (n ≤ String.length s)%nat →
  s = substring 0 n s +:+ substring n (String.length s - n) s.
Proof.
  revert n. induction s as [|c s IH]; intros n Hn; simpl in *.
  - by destruct n.
  - destruct n as [|n]; simpl.
    + by rewrite substring_all.
    + change (String c s
              = String c (substring 0 n s +:+ substring n (String.length s - n) s)).
      f_equal. apply IH. lia.
Qed.

(** [s.endswith(suffix)] says that [s] is something followed by [suffix]. *)
Lemma endswith_spec s suffix :
  PyStr.endswith s suffix = true ↔ ∃ stem, s = stem +:+ suffix.
Proof.
  unfold PyStr.endswith. split.
  - intros H. apply andb_true_iff in H as [Hlen Heq].
    apply Nat.leb_le in Hlen. apply String.eqb_eq in Heq.
    exists (substring 0 (String.length s - String.length suffix) s).
    pose proof (substring_split (String.length s - String.length suffix) s) as Hs.
    replace (String.length s - (String.length s - String.length suffix))%nat
      with (String.length suffix) in Hs by lia.
    rewrite Heq in Hs. apply Hs. lia.
  - intros [stem ->]. rewrite string_length_append.
    apply andb_true_iff. split; [apply Nat.leb_le; lia|].
    apply String.eqb_eq.
    replace (String.length stem + String.length suffix - String.length suffix)%nat
      with (String.length stem) by lia.
    by rewrite substring_append_r, substring_all.
Qed.

(** [(stem + suffix)[:-len(suffix)]] is [stem]. *)
Lemma drop_last_append stem suffix :
  PyStr.drop_last (String.length suffix) (stem +:+ suffix) = stem.
Proof.
  unfold PyStr.drop_last. rewrite string_length_append.
  replace (String.length stem + String.length suffix - String.length suffix)%nat
    with (String.length stem) by lia.
  apply substring_append_l.
Qed.

(** ** The registry and the option lists *)

Lemma task_spec name func st :
  TaskManager.task name func st = (OK func, set_tasks (<[name := func]>) st).
Proof. done. Qed.

Lemma opts_of_set_tasks g st func : opts_of (set_tasks g st) func = opts_of st func.
Proof. done. Qed.

Lemma lookup_set_opts_module (m : gmap nat FuncObj) func l g :
  f_module <$> alter (λ fo, {| f_module := f_module fo; f_body := f_body fo;
                               f_opts := Some l |}) func m !! g
  = f_module <$> m !! g.
Proof.
  destruct (decide (func = g)) as [->|Hne].
  - rewrite lookup_alter_eq. by destruct (m !! g).
  - by rewrite lookup_alter_ne.
Qed.

Lemma lookup_set_opts_body (m : gmap nat FuncObj) func l g :
  f_body <$> alter (λ fo, {| f_module := f_module fo; f_body := f_body fo;
                             f_opts := Some l |}) func m !! g
  = f_body <$> m !! g.
Proof.
  destruct (decide (func = g)) as [->|Hne].
  - rewrite lookup_alter_eq. by destruct (m !! g).
  - by rewrite lookup_alter_ne.
Qed.

(** What [taskm.option(...)(func)] does to a function object that exists:
    the descriptor is appended to the function's list, whether the attribute
    was there before or not. *)
Lemma option_spec o func st :
  is_Some (funcs st !! func) →
  ∃ st', TaskManager.option_ o func st = (OK func, st')
    ∧ opts_of st' func = opts_of st func ++ [o]
    ∧ tasks st' = tasks st
    ∧ trace st' = trace st
    ∧ next_func st' = next_func st
    ∧ (∀ g, f_module <$> funcs st' !! g = f_module <$> funcs st !! g)
    ∧ (∀ g, f_body <$> funcs st' !! g = f_body <$> funcs st !! g).
Proof.
  intros [fo Hfo]. unfold TaskManager.option_, getattr_opts, opts_of.
  munfold. rewrite Hfo. simpl.
  destruct (f_opts fo) as [l|] eqn:Hl; simpl.
  - unfold read_list. destruct (list_at st l) as [|x xs] eqn:Hxs.
    + eexists. split; [reflexivity|]. simpl.
      rewrite lookup_alter_eq, Hfo. simpl.
      unfold list_at in *. simpl. rewrite lookup_insert_eq, Hxs. simpl.
      split_and!; auto using lookup_set_opts_module, lookup_set_opts_body.
    + eexists. split; [reflexivity|]. simpl. rewrite Hfo. simpl. rewrite Hl.
      unfold list_at in *. simpl. rewrite lookup_insert_eq, Hxs. simpl.
      split_and!; auto.
  - unfold new_list, read_list, list_at. simpl. rewrite lookup_insert_eq. simpl.
    eexists. split; [reflexivity|]. simpl.
    rewrite lookup_alter_eq, Hfo. simpl. rewrite lookup_insert_eq. simpl.
    split_and!; auto using lookup_set_opts_module, lookup_set_opts_body.
    by rewrite lookup_insert_eq.
Qed.

Lemma registered_lookup ds func t name :
  DTask name ∈ ds → registered ds func t !! name = Some func.
Proof.
  induction ds as [|d ds IH]; intros Hin; [by apply not_elem_of_nil in Hin|].
  apply elem_of_cons in Hin as [<-|Hin]; simpl.
  - apply lookup_insert_eq.
  - destruct d as [n|o]; [|by apply IH].
    destruct (decide (n = name)) as [->|Hne].
    + apply lookup_insert_eq.
    + rewrite lookup_insert_ne by done. by apply IH.
Qed.


Lemma apply_decorators_spec ds func st :
  is_Some (funcs st !! func) →
  ∃ st', apply_decorators ds func st = (OK func, st')
    ∧ opts_of st' func = opts_of st func ++ rev (options_of ds)
    ∧ tasks st' = registered ds func (tasks st)
    ∧ trace st' = trace st
    ∧ next_func st' = next_func st
    ∧ (∀ g, f_module <$> funcs st' !! g = f_module <$> funcs st !! g)
    ∧ (∀ g, f_body <$> funcs st' !! g = f_body <$> funcs st !! g).
Proof.
  intros Hlive. induction ds as [|d ds IH]; simpl.
  - exists st. rewrite app_nil_r. by split_and!.
  - destruct IH as (st1 & Hrun & Hopts & Htasks & Htrace & Hnext & Hmod & Hbody).
    rewrite (bind_OK _ _ _ _ _ Hrun).
    destruct d as [n|o]; simpl.
    + eexists. split; [apply task_spec|]. simpl.
      rewrite opts_of_set_tasks, Htasks. by split_and!.
    + assert (is_Some (funcs st1 !! func)) as Hlive1.
      { destruct Hlive as [fo Hfo]. specialize (Hmod func). rewrite Hfo in Hmod.
        destruct (funcs st1 !! func); [eauto | discriminate]. }
      destruct (option_spec o func st1 Hlive1)
        as (st2 & Hrun2 & Hopts2 & Htasks2 & Htrace2 & Hnext2 & Hmod2 & Hbody2).
      exists st2. split_and!; try congruence;
        try (intros g; by rewrite ?Hmod2, ?Hbody2).
      rewrite Hopts2, Hopts. unfold options_of. simpl. by rewrite <- app_assoc.
Qed.

(** A function definition: the new function object, then its decorators. *)
Lemma exec_def_spec modname ds body st :
  ∃ st', exec_stmt modname (Def ds body) st = (OK tt, st')
    ∧ opts_of st' (next_func st) = rev (options_of ds)
    ∧ tasks st' = registered ds (next_func st) (tasks st)
    ∧ trace st' = trace st
    ∧ next_func st' = S (next_func st)
    ∧ f_module <$> funcs st' !! next_func st = Some modname
    ∧ f_body <$> funcs st' !! next_func st = Some body
    ∧ (∀ g, g ≠ next_func st →
         f_module <$> funcs st' !! g = f_module <$> funcs st !! g).
Proof.
  unfold exec_stmt.
  set (f := next_func st).
  set (st0 := {| funcs := <[f := {| f_module := modname; f_body := body;
                                    f_opts := None |}]> (funcs st);
                 next_func := S f; lists := lists st; next_list := next_list st;
                 tasks := tasks st; sys_modules := sys_modules st; trace := trace st |}).
  assert (new_function modname body st = (OK f, st0)) as Hnew by done.
  assert (is_Some (funcs st0 !! f)) as Hlive.
  { simpl. rewrite lookup_insert_eq. eauto. }
  destruct (apply_decorators_spec ds f st0 Hlive)
    as (st1 & Hrun & Hopts & Htasks & Htrace & Hnext & Hmod & Hbody).
  exists st1. split.
  { rewrite (bind_OK _ _ _ _ _ Hnew). by rewrite (bind_OK _ _ _ _ _ Hrun). }
  split_and!; try done.
  - rewrite Hopts. unfold opts_of. simpl. by rewrite lookup_insert_eq.
  - rewrite Hmod. simpl. by rewrite lookup_insert_eq.
  - rewrite Hbody. simpl. by rewrite lookup_insert_eq.
  - intros g Hg. rewrite Hmod. simpl. by rewrite lookup_insert_ne.
Qed.

(** ** The dispatcher, step by step *)

Section Dispatch.

Context (env : Env).

Lemma add_result_OK declared opts ds :
  add_result env declared opts = OK ds →
  ds = declared ++ opts ∧ add_calls env declared opts = length opts.
Proof.
  revert declared. induction opts as [|o rest IH]; intros declared; simpl.
  - intros [= <-]. by rewrite app_nil_r.
  - destruct (add_argument_error env declared o); [discriminate|].
    intros H. apply IH in H as [-> ->]. by rewrite <- app_assoc.
Qed.

Lemma add_calls_le declared opts : (add_calls env declared opts ≤ length opts)%nat.
Proof.
  revert declared. induction opts as [|o rest IH]; intros declared; simpl; [lia|].
  destruct (add_argument_error env declared o); [lia|].
  specialize (IH (declared ++ [o])). lia.
Qed.

Lemma add_arguments_spec parser opts st :
  add_arguments env parser opts st
  = (match add_result env (Argparse.declared parser) opts with
     | OK ds => OK {| Argparse.prog := Argparse.prog parser; Argparse.declared := ds |}
     | Raise e => Raise e
     end,
     add_events (EvAddArgument <$>
                   take (add_calls env (Argparse.declared parser) opts) opts) st).
Proof.
  revert parser st. induction opts as [|o rest IH]; intros parser st; simpl.
  - rewrite add_events_nil. by destruct parser.
  - unfold add_argument at 1. munfold.
    destruct (add_argument_error env (Argparse.declared parser) o) as [e|]; simpl.
    + done.
    + rewrite IH. simpl. by rewrite add_event_events, add_events_app.
Qed.

Lemma parse_args_spec parser extra st :
  parse_args env parser extra st
  = match parse_outcome env parser extra with
    | Argparse.Parsed ns => (OK ns, add_events [EvParseArgs extra] st)
    | Argparse.HelpExit =>
        (Raise (SystemExit 0), add_events [EvParseArgs extra; EvPrintHelp] st)
    | Argparse.UsageError err =>
        (Raise (SystemExit 2), add_events [EvParseArgs extra; EvParserError err] st)
    | Argparse.ParseRaises e => (Raise e, add_events [EvParseArgs extra] st)
    end.
Proof.
  unfold parse_args. munfold.
  destruct (parse_outcome env parser extra);
    by rewrite ?add_event_events, ?add_events_app.
Qed.

(** Reading the options of a function leaves everything but the list store
    as it is. *)
Lemma getattr_opts_spec func st :
  ∃ l st', getattr_opts func st = (OK l, st')
    ∧ list_at st' l = opts_of st func
    ∧ funcs st' = funcs st ∧ next_func st' = next_func st
    ∧ tasks st' = tasks st ∧ trace st' = trace st.
Proof.
  unfold getattr_opts, opts_of.
  destruct (funcs st !! func ≫= f_opts) as [l|].
  - by exists l, st.
  - eexists _, _. split; [reflexivity|]. unfold list_at. simpl.
    by rewrite lookup_insert_eq.
Qed.

Lemma invoke_found name extra st func :
  tasks st !! name = Some func →
  ∃ st', funcs st' = funcs st ∧ next_func st' = next_func st
    ∧ tasks st' = tasks st ∧ trace st' = trace st
    ∧ invoke env name extra st
      = (let out := dispatch_outcome env func (f_body <$> funcs st !! func)
                      (opts_of st func) extra in
         (out.1, add_events out.2 st')).
Proof.
  intros Hname.
  destruct (getattr_opts_spec func st) as (l & st' & Hget & Hl & Hf & Hn & Ht & Htr).
  exists st'. split_and!; try done.
  unfold invoke.
  rewrite (bind_OK _ _ st func st); [|by unfold TaskManager.getitem; rewrite Hname].
  rewrite (bind_OK _ _ _ _ _ Hget).
  rewrite (bind_OK _ _ st' (opts_of st func) st'); [|by unfold read_list; rewrite Hl].
  rewrite (bind_OK _ _ st' {| Argparse.prog := "seatask"; Argparse.declared := [] |}
             (add_events [EvNewParser "seatask"] st')); [|done].
  unfold dispatch_outcome. cbv zeta.
  unfold mbind at 1, M_bind at 1, bind at 1. rewrite add_arguments_spec. simpl.
  destruct (add_result env [] (opts_of st func)) as [ds|e]; simpl.
  - rewrite add_events_app.
    unfold mbind at 1, M_bind at 1, bind at 1. rewrite parse_args_spec.
    destruct (parse_outcome env _ extra) as [ns| |err|e]; simpl;
      rewrite add_events_app; try done.
    unfold call. munfold. simpl. unfold apply_function. simpl. rewrite Hf.
    rewrite add_event_events, add_events_app. simpl.
    rewrite <- app_assoc. simpl.
    by destruct (funcs st !! func).
  - by rewrite add_events_app.
Qed.

End Dispatch.

(** ** Loops *)

Lemma for_cons {A} (x : A) xs (body : A → M unit) st :
  for_ (x :: xs) body st
  = match body x st with
    | (OK _, st1) => for_ xs body st1
    | (Raise e, st1) => (Raise e, st1)
    end.
Proof. done. Qed.

Lemma for_app {A} (xs ys : list A) (body : A → M unit) st :
  for_ (xs ++ ys) body st
  = match for_ xs body st with
    | (OK _, st1) => for_ ys body st1
    | (Raise e, st1) => (Raise e, st1)
    end.
Proof.
  revert st. induction xs as [|x xs IH]; intros st; [done|].
  simpl app. rewrite !for_cons.
  destruct (body x st) as [[[]|e] st1]; [apply IH | done].
Qed.

(** What every iteration keeps holds when the loop is through. *)
Lemma for_preserve {A} (I : State → Prop) (body : A → M unit) xs :
  (∀ x st st', x ∈ xs → I st → body x st = (OK tt, st') → I st') →
  ∀ st st', I st → for_ xs body st = (OK tt, st') → I st'.
Proof.
  induction xs as [|x xs IH]; intros Hstep st st' HI Hrun.
  - by injection Hrun as <-.
  - rewrite for_cons in Hrun.
    destruct (body x st) as [[[]|e] st1] eqn:Hx; [|discriminate].
    apply (IH (λ y s s' Hy, Hstep y s s' (list_elem_of_further _ _ _ Hy)) st1);
      [|done].
    eapply Hstep; [apply list_elem_of_here|done|done].
Qed.

Lemma for_app_OK {A} (xs ys : list A) (body : A → M unit) st st' :
  for_ (xs ++ ys) body st = (OK tt, st') →
  ∃ st1, for_ xs body st = (OK tt, st1) ∧ for_ ys body st1 = (OK tt, st').
Proof.
  rewrite for_app. destruct (for_ xs body st) as [[[]|e] st1]; [eauto|discriminate].
Qed.

(** What one iteration brings about and every later one keeps holds when the
    loop is through. *)
Lemma for_establish {A} (I P : State → Prop) (body : A → M unit) xs x0 :
  x0 ∈ xs →
  (∀ x st st', x ∈ xs → I st → body x st = (OK tt, st') → I st') →
  (∀ x st st', x ∈ xs → I st → P st → body x st = (OK tt, st') → P st') →
  (∀ st st', I st → body x0 st = (OK tt, st') → P st') →
  ∀ st st', I st → for_ xs body st = (OK tt, st') → P st'.
Proof.
  intros Hin HI HP H0 st st' Hst Hrun.
  apply list_elem_of_split in Hin as (pre & post & ->).
  apply for_app_OK in Hrun as (st1 & Hpre & Hrun).
  rewrite for_cons in Hrun.
  destruct (body x0 st1) as [[[]|e] st2] eqn:Hx0; [|discriminate].
  assert (I st1) as Hst1.
  { apply (for_preserve I body pre) with (st := st); [|done|done].
    intros y s s' Hy. apply HI. apply elem_of_app. by left. }
  assert (I st2 ∧ P st2) as Hst2.
  { split; [|by eapply H0].
    eapply HI; [|done|done]. apply elem_of_app. right. apply list_elem_of_here. }
  assert (I st' ∧ P st') as [_ ?]; [|done].
  apply (for_preserve (λ s, I s ∧ P s) body post) with (st := st2); [|done|done].
  intros y s s' Hy [HIs HPs] Hy_run.
  assert (y ∈ pre ++ x0 :: post) as Hy'.
  { apply elem_of_app. right. by apply list_elem_of_further. }
  split; [by eapply HI | by eapply HP].
Qed.

(** ** Loading task modules *)

Section Loading.

Context (env : Env).

Lemma for_trace_same {A} (body : A → M unit) xs :
  (∀ x st r st', body x st = (r, st') → trace st' = trace st) →
  ∀ st r st', for_ xs body st = (r, st') → trace st' = trace st.
Proof.
  intros Hbody. induction xs as [|x xs IH]; intros st r st' Hrun.
  - by injection Hrun as _ <-.
  - rewrite for_cons in Hrun.
    destruct (body x st) as [[[]|e] st1] eqn:Hx.
    + rewrite (IH _ _ _ Hrun). by eapply Hbody.
    + injection Hrun as _ <-. by eapply Hbody.
Qed.

Lemma exec_stmt_trace modname s st r st' :
  exec_stmt modname s st = (r, st') → trace st' = trace st.
Proof.
  destruct s as [ds body|e].
  - destruct (exec_def_spec modname ds body st) as (st1 & -> & _ & _ & Htr & _).
    by intros [= _ <-].
  - by intros [= _ <-].
Qed.

(** Decorators and definitions leave [sys.modules] alone. *)
Lemma option_sys_modules o func st r st' :
  TaskManager.option_ o func st = (r, st') → sys_modules st' = sys_modules st.
Proof.
  unfold TaskManager.option_, getattr_opts, new_list, read_list, setattr_opts,
    list_append. munfold.
  destruct (option_bind _ _ _ _) as [l|]; simpl;
    match goal with |- context [list_at ?s ?l] => destruct (list_at s l) end;
    simpl; by intros [= _ <-].
Qed.

Lemma apply_decorators_sys_modules ds func st r st' :
  apply_decorators ds func st = (r, st') → sys_modules st' = sys_modules st.
Proof.
  revert r st'. induction ds as [|d ds IH]; intros r st'; simpl.
  - by intros [= _ <-].
  - munfold. destruct (apply_decorators ds func st) as [[f|e] st1] eqn:Hds.
    + specialize (IH _ _ eq_refl). destruct d as [n|o]; simpl.
      * intros [= _ <-]. exact IH.
      * intros Ho. apply option_sys_modules in Ho. congruence.
    + intros [= _ <-]. by apply (IH _ _ eq_refl).
Qed.

Lemma exec_stmt_sys_modules modname s st r st' :
  exec_stmt modname s st = (r, st') → sys_modules st' = sys_modules st.
Proof.
  destruct s as [ds body|e]; simpl.
  - unfold new_function. munfold.
    destruct (apply_decorators ds (next_func st) _) as [[f|e] st1] eqn:Hds;
      apply apply_decorators_sys_modules in Hds; by intros [= _ <-].
  - by intros [= _ <-].
Qed.

Lemma exec_module_sys_modules modname body st r st' :
  exec_module modname body st = (r, st') → sys_modules st' = sys_modules st.
Proof.
  unfold exec_module. revert st. induction body as [|s body IH]; intros st Hrun.
  - by injection Hrun as _ <-.
  - rewrite for_cons in Hrun.
    destruct (exec_stmt modname s st) as [[[]|e] st1] eqn:Hs;
      apply exec_stmt_sys_modules in Hs.
    + rewrite (IH _ Hrun). exact Hs.
    + by injection Hrun as _ <-.
Qed.

Lemma existsb_eqb_elem_of (x : string) (l : list string) :
  existsb (String.eqb x) l = true ↔ x ∈ l.
Proof.
  rewrite existsb_exists. split.
  - intros (y & Hy & ->%String.eqb_eq). by apply list_elem_of_In.
  - intros Hx. exists x. split; [by apply list_elem_of_In|apply String.eqb_refl].
Qed.

Lemma filter_other_names (x : string) (l : list string) :
  x ∉ l → List.filter (λ n, negb (String.eqb n x)) l = l.
Proof.
  induction l as [|y l IH]; [done|]. intros Hx. simpl.
  apply not_elem_of_cons in Hx as [Hxy Hx].
  destruct (String.eqb_spec y x) as [->|_]; [done|]. simpl. by rewrite IH.
Qed.

(** The three ways of an import: the module is loaded already, it is
    missing, or its body is executed. *)
Lemma import_module_cases name st r st' :
  import_module env name st = (r, st') →
  ((name ∈ sys_modules st) ∧ r = OK tt ∧ st' = st)
  ∨ ((name ∉ sys_modules st) ∧ modules env !! name = None
     ∧ r = Raise (ImportError name) ∧ st' = st)
  ∨ (∃ body s1,
       (name ∉ sys_modules st)
       ∧ modules env !! name = Some body
       ∧ exec_module name body (set_sys_modules (cons name) st) = (r, s1)
       ∧ st' = match r with
               | OK _ => s1
               | Raise _ =>
                   set_sys_modules (List.filter (λ n, negb (String.eqb n name))) s1
               end).
Proof.
  unfold import_module.
  destruct (existsb (String.eqb name) (sys_modules st)) eqn:Hin.
  - apply existsb_eqb_elem_of in Hin. intros [= <- <-]. by left.
  - assert (name ∉ sys_modules st) as Hnot.
    { intros Hx%existsb_eqb_elem_of. congruence. }
    destruct (modules env !! name) as [body|] eqn:Hbody.
    + destruct (exec_module name body _) as [[[]|e] s1] eqn:Hexec;
        intros [= <- <-]; right; right; by exists body, s1.
    + intros [= <- <-]. right. by left.
Qed.

Lemma import_module_trace name st r st' :
  import_module env name st = (r, st') → trace st' = trace st.
Proof.
  intros [(_ & _ & ->) | [(_ & _ & _ & ->) | (body & s1 & _ & _ & Hexec & ->)]]%import_module_cases;
    [done|done|].
  apply (for_trace_same (exec_stmt name) body) in Hexec;
    [|intros s; apply exec_stmt_trace].
  by destruct r.
Qed.

(** What an import leaves in [sys.modules]: what was there, with the module
    in front when its body was executed and did not raise. *)
Lemma import_module_sys_modules name st r st' :
  import_module env name st = (r, st') →
  sys_modules st' = sys_modules st
  ∨ (r = OK tt ∧ sys_modules st' = name :: sys_modules st).
Proof.
  intros [(_ & _ & ->) | [(_ & _ & _ & ->) | (body & s1 & Hnot & _ & Hexec & ->)]]%import_module_cases;
    [by left|by left|].
  apply exec_module_sys_modules in Hexec. simpl in Hexec.
  destruct r as [[]|e].
  - right. by split.
  - left. simpl. rewrite Hexec. simpl. rewrite String.eqb_refl. simpl.
    by apply filter_other_names.
Qed.

Lemma import_string_unfold name st :
  import_string env name st = import_module env name (add_events [EvImport name] st).
Proof. done. Qed.

Lemma import_string_trace name st r st' :
  import_string env name st = (r, st') → trace st' = trace st ++ [EvImport name].
Proof.
  rewrite import_string_unfold. intros H. by apply import_module_trace in H.
Qed.

Lemma load_entry_trace root m st r st' :
  load_entry env root m st = (r, st') →
  trace st' = trace st ++ (EvImport <$> task_modules env root [m]).
Proof.
  unfold load_entry, task_modules. simpl.
  destruct (is_task_file env root m); simpl.
  - apply import_string_trace.
  - intros [= _ <-]. by rewrite app_nil_r.
Qed.

Lemma task_modules_app root ms1 ms2 :
  task_modules env root (ms1 ++ ms2) = task_modules env root ms1 ++ task_modules env root ms2.
Proof. unfold task_modules. by rewrite List.filter_app, fmap_app. Qed.

(** The imports of the loop: those of the task files among the entries, up
    to the one whose import raises, if one does. *)
Lemma load_entries_trace root ms st r st' :
  for_ ms (load_entry env root) st = (r, st') →
  ∃ k, trace st' = trace st ++ (EvImport <$> task_modules env root (take k ms))
       ∧ (r = OK tt → take k ms = ms).
Proof.
  revert st. induction ms as [|m ms IH]; intros st Hrun.
  - injection Hrun as <- <-. exists 0. by rewrite app_nil_r.
  - rewrite for_cons in Hrun.
    destruct (load_entry env root m st) as [[[]|e] st1] eqn:Hm.
    + apply load_entry_trace in Hm. apply IH in Hrun as (k & Htr & Hk).
      exists (S k). split.
      * rewrite Htr, Hm. simpl take.
        change (m :: take k ms) with ([m] ++ take k ms).
        by rewrite task_modules_app, fmap_app, app_assoc.
      * intros Hr. simpl. by rewrite (Hk Hr).
    + injection Hrun as <- <-. apply load_entry_trace in Hm.
      exists 1. split; [by rewrite Hm|discriminate].
Qed.

End Loading.

(** ** The events of a dispatch *)

Lemma added_arguments_fmap opts : added_arguments (EvAddArgument <$> opts) = opts.
Proof.
  unfold added_arguments. induction opts as [|o opts IH]; [done|].
  rewrite fmap_cons. cbn [omap list_omap]. f_equal. apply IH.
Qed.

Lemma calls_of_fmap opts : calls_of (EvAddArgument <$> opts) = [].
Proof. unfold calls_of. induction opts as [|o opts IH]; [done|]. apply IH. Qed.

Lemma added_arguments_app evs1 evs2 :
  added_arguments (evs1 ++ evs2) = added_arguments evs1 ++ added_arguments evs2.
Proof. apply omap_app. Qed.

Lemma calls_of_app evs1 evs2 : calls_of (evs1 ++ evs2) = calls_of evs1 ++ calls_of evs2.
Proof. apply omap_app. Qed.

Lemma imports_of_app evs1 evs2 :
  imports_of (evs1 ++ evs2) = imports_of evs1 ++ imports_of evs2.
Proof. apply omap_app. Qed.

Lemma imports_of_fmap names : imports_of (EvImport <$> names) = names.
Proof.
  unfold imports_of. induction names as [|n names IH]; [done|].
  rewrite fmap_cons. cbn [omap list_omap]. f_equal. apply IH.
Qed.

Section DispatchEvents.

Context (env : Env).

(** The parser gets the options of the function, in their order, up to the
    one [add_argument] rejects. *)
Lemma dispatch_outcome_added func body opts extra :
  added_arguments (dispatch_outcome env func body opts extra).2
  = take (add_calls env [] opts) opts.
Proof.
  unfold dispatch_outcome. cbv zeta.
  set (adds := EvAddArgument <$> take (add_calls env [] opts) opts).
  assert (added_arguments (EvNewParser "seatask" :: adds)
          = take (add_calls env [] opts) opts) as Hadds
    by apply added_arguments_fmap.
  destruct (add_result env [] opts) as [ds|e]; [|done].
  destruct (parse_outcome env _ extra); cbn [snd];
    rewrite added_arguments_app, Hadds; apply app_nil_r.
Qed.

(** The function is called when the arguments were parsed, once, and not
    called otherwise. *)
Lemma dispatch_outcome_calls func body opts extra :
  calls_of (dispatch_outcome env func body opts extra).2
  = match add_result env [] opts with
    | OK ds =>
        match parse_outcome env {| Argparse.prog := "seatask";
                                   Argparse.declared := ds |} extra with
        | Argparse.Parsed ns => [(func, ns)]
        | _ => []
        end
    | Raise _ => []
    end.
Proof.
  unfold dispatch_outcome. cbv zeta.
  set (adds := EvAddArgument <$> take (add_calls env [] opts) opts).
  assert (calls_of (EvNewParser "seatask" :: adds) = []) as Hadds
    by apply calls_of_fmap.
  destruct (add_result env [] opts) as [ds|e]; [|done].
  destruct (parse_outcome env _ extra); cbn [snd];
    by rewrite calls_of_app, Hadds.
Qed.

End DispatchEvents.

(** The entries of a dictionary under one key. *)
Lemma entries_under_key (m : gmap string nat) name func :
  m !! name = Some func →
  List.filter (λ kv, String.eqb kv.1 name) (map_to_list m) = [(name, func)].
Proof.
  intros Hm. apply elem_of_map_to_list in Hm.
  pose proof (NoDup_fst_map_to_list m) as Hnd.
  induction (map_to_list m) as [|[k v] l IH]; [by apply not_elem_of_nil in Hm|].
  simpl in *. apply NoDup_cons in Hnd as [Hk Hnd].
  apply elem_of_cons in Hm as [[= <- <-]|Hm].
  - rewrite String.eqb_refl. f_equal.
    clear IH. induction l as [|[k' v'] l IH]; [done|]. simpl in *.
    apply not_elem_of_cons in Hk as [Hne Hk]. apply NoDup_cons in Hnd as [_ Hnd].
    destruct (String.eqb_spec k' name) as [->|_]; [done|by apply IH].
  - destruct (String.eqb_spec k name) as [->|_]; [|by apply IH].
    exfalso. apply Hk. apply list_elem_of_fmap. by exists (name, func).
Qed.

(** * The claims *)

(** C9.  The wrapper of [taskm.task(name)] returns the function it was given,
    the same object, and so does the wrapper of [taskm.option(...)].  Applied
    to one function in either order, [@taskm.task(name)] and
    [@taskm.option(...)] leave the same store: the registry holds the function
    under [name] and the function's option list has grown by the one
    descriptor.  A dispatch from either store is therefore the same. *)
Theorem task_and_option_commute env name o func extra st :
  is_Some (funcs st !! func) →
  (TaskManager.task name func st).1 = OK func
  ∧ ∃ st1 st2,
      apply_decorators [DTask name; DOption o] func st = (OK func, st1)
      ∧ apply_decorators [DOption o; DTask name] func st = (OK func, st2)
      ∧ st1 = st2
      ∧ tasks st1 !! name = Some func
      ∧ opts_of st1 func = opts_of st func ++ [o]
      ∧ invoke env name extra st1 = invoke env name extra st2.
Proof.
  intros Hlive. split; [done|].
  destruct (option_spec o func st Hlive) as (st1 & Hopt & Hopts & Htasks & _).
  assert (is_Some (funcs (set_tasks (<[name := func]>) st) !! func)) as Hlive' by done.
  destruct (option_spec o func _ Hlive') as (st2 & Hopt2 & Hopts2 & Htasks2 & _).
  exists (set_tasks (<[name := func]>) st1), st2.
  assert (st2 = set_tasks (<[name := func]>) st1) as ->.
  { destruct Hlive as [fo Hfo].
    revert Hopt Hopt2. unfold TaskManager.option_, getattr_opts, read_list.
    munfold. simpl. rewrite Hfo. simpl.
    destruct (f_opts fo) as [l|]; simpl.
    - unfold list_at. simpl. destruct (default [] (lists st !! l));
        intros [= <-] [= <-]; done.
    - unfold list_at. simpl. rewrite lookup_insert_eq. simpl.
      intros [= <-] [= <-]; done. }
  split_and!; try done.
  - simpl. rewrite (bind_OK _ _ _ _ _ Hopt). apply task_spec.
  - simpl. apply lookup_insert_eq.
Qed.

Lemma task_and_option_commute_witness :
  (TaskManager.task "deploy" 0 Sample.plugins_loaded).1 = OK 0
  ∧ ∃ st1 st2,
      apply_decorators [DTask "deploy"; DOption Sample.opt_verbose] 0
        Sample.plugins_loaded = (OK 0, st1)
      ∧ apply_decorators [DOption Sample.opt_verbose; DTask "deploy"] 0
          Sample.plugins_loaded = (OK 0, st2)
      ∧ st1 = st2
      ∧ tasks st1 !! "deploy" = Some 0
      ∧ opts_of st1 0 = opts_of Sample.plugins_loaded 0 ++ [Sample.opt_verbose]
      ∧ invoke Sample.env "deploy" [] st1 = invoke Sample.env "deploy" [] st2.
Proof.
  apply (task_and_option_commute Sample.env "deploy" Sample.opt_verbose 0 []
           Sample.plugins_loaded).
  vm_compute. eauto.
Defined.

(** C2.  Registering [f1] and then [f2] under one name never fails and leaves
    one entry under that name, [f2].  A dispatch of the name afterwards is
    that of [f2] alone: its outcome and its events are computed from the body
    and the options of [f2], and the arguments added to the parser are the
    options of [f2], in order, up to one that [add_argument] rejects. *)
Theorem second_registration_wins env name f1 f2 extra st :
  ∃ st1 st2,
    TaskManager.task name f1 st = (OK f1, st1)
    ∧ TaskManager.task name f2 st1 = (OK f2, st2)
    ∧ tasks st2 !! name = Some f2
    ∧ List.filter (λ kv, String.eqb kv.1 name) (map_to_list (tasks st2)) = [(name, f2)]
    ∧ opts_of st2 f2 = opts_of st f2
    ∧ ∃ st3 evs,
        invoke env name extra st2
        = ((dispatch_outcome env f2 (f_body <$> funcs st !! f2) (opts_of st f2) extra).1,
           st3)
        ∧ trace st3 = trace st2 ++ evs
        ∧ added_arguments evs
          = take (add_calls env [] (opts_of st f2)) (opts_of st f2).
Proof.
  set (st1 := set_tasks (<[name := f1]>) st).
  set (st2 := set_tasks (<[name := f2]>) st1).
  assert (tasks st2 !! name = Some f2) as Hname by apply lookup_insert_eq.
  exists st1, st2. split_and!; try done.
  - by apply entries_under_key.
  - destruct (invoke_found env name extra st2 f2 Hname)
      as (st' & _ & _ & _ & Htr & Hrun).
    eexists _, _. split; [apply Hrun|]. split.
    + simpl. by rewrite Htr.
    + apply dispatch_outcome_added.
Qed.

(** C3.  A name that is not in the registry makes the dispatcher raise the
    [KeyError] of the dictionary lookup, whatever the extra arguments.  The
    state is the one before the call: no parser was created, no argument
    added, nothing parsed and nothing called.  So [run] ends, once the tasks
    are loaded, with that [KeyError] in the state the loaders left. *)
Theorem missing_task_raises env name extra st :
  tasks st !! name = None →
  invoke env name extra st = (Raise (KeyError name), st)
  ∧ (∀ args st0 app b1 st1 b2,
       args_task args = name →
       create_app env (args_workdir args) = OK app →
       _load_plugin_tasks env st0 = (OK b1, st1) →
       _load_app_tasks env app st1 = (OK b2, st) →
       run env args extra st0 = (Raise (KeyError name), st)).
Proof.
  intros Hname.
  assert (invoke env name extra st = (Raise (KeyError name), st)) as Hinv.
  { unfold invoke. apply bind_Raise.
    unfold TaskManager.getitem. by rewrite Hname. }
  split; [done|].
  intros args st0 app b1 st1 b2 <- Happ Hplug Hload. unfold run.
  rewrite (bind_OK _ _ st0 app st0); [|by unfold lift; rewrite Happ].
  rewrite (bind_OK _ _ _ _ _ Hplug). by rewrite (bind_OK _ _ _ _ _ Hload).
Qed.

Lemma missing_task_raises_witness :
  invoke Sample.env "missing-task" ["--x"; "5"] Sample.loaded
  = (Raise (KeyError "missing-task"), Sample.loaded)
  ∧ run Sample.env {| args_workdir := "/srv/app"; args_task := "missing-task" |}
      ["--x"; "5"] init
    = (Raise (KeyError "missing-task"), Sample.loaded).
Proof.
  destruct (missing_task_raises Sample.env "missing-task" ["--x"; "5"] Sample.loaded
              eq_refl) as [Hinv Hrun].
  split; [exact Hinv|].
  apply (Hrun {| args_workdir := "/srv/app"; args_task := "missing-task" |}
           init Sample.app true Sample.plugins_loaded true);
    vm_compute; reflexivity.
Defined.

(** C1.  When the command has loaded the tasks, the name is registered, the
    parser accepts the options of the task and parses the extra arguments
    into [ns], then [run] calls the task once, with [ns] as keyword
    arguments, as its last step, and yields what the body of the task yields
    on [ns]: the value it returns or the very exception it raises. *)
Theorem run_calls_the_task_once env args extra st0 app b1 st1 b2 st func fo ds ns :
  create_app env (args_workdir args) = OK app →
  _load_plugin_tasks env st0 = (OK b1, st1) →
  _load_app_tasks env app st1 = (OK b2, st) →
  tasks st !! args_task args = Some func →
  funcs st !! func = Some fo →
  add_result env [] (opts_of st func) = OK ds →
  parse_outcome env {| Argparse.prog := "seatask"; Argparse.declared := ds |} extra
  = Argparse.Parsed ns →
  ds = opts_of st func
  ∧ ∃ st' evs,
      run env args extra st0 = (f_body fo ns, st')
      ∧ trace st' = trace st ++ evs
      ∧ calls_of evs = [(func, ns)]
      ∧ last evs = Some (EvCall func ns).
Proof.
  intros Happ Hplug Hload Hname Hfo Hadd Hparse.
  split; [by apply add_result_OK in Hadd as [-> _]|].
  destruct (invoke_found env (args_task args) extra st func Hname)
    as (st' & _ & _ & _ & Htr & Hrun).
  pose proof (dispatch_outcome_calls env func (f_body <$> funcs st !! func)
                (opts_of st func) extra) as Hcalls.
  revert Hrun Hcalls. unfold dispatch_outcome.
  rewrite Hadd, Hparse, Hfo. simpl. intros Hrun Hcalls.
  eexists _, _. split_and!.
  - unfold run. rewrite (bind_OK _ _ st0 app st0); [|by unfold lift; rewrite Happ].
    rewrite (bind_OK _ _ _ _ _ Hplug). rewrite (bind_OK _ _ _ _ _ Hload).
    apply Hrun.
  - simpl. by rewrite Htr.
  - done.
  - rewrite app_comm_cons.
    change [EvParseArgs extra; EvCall func ns]
      with ([EvParseArgs extra] ++ [EvCall func ns]).
    rewrite app_assoc. apply last_snoc.
Qed.

Lemma run_calls_the_task_once_witness :
  ∃ st' evs,
    run Sample.env Sample.build_args ["--x"; "5"] init
    = (OK (VStr "application build"), st')
    ∧ trace st' = trace Sample.loaded ++ evs
    ∧ calls_of evs = [(1, [("x", VInt 5); ("verbose", VBool false)])]
    ∧ last evs = Some (EvCall 1 [("x", VInt 5); ("verbose", VBool false)]).
Proof.
  refine (proj2 (run_calls_the_task_once Sample.env Sample.build_args ["--x"; "5"]
            init Sample.app true Sample.plugins_loaded true Sample.loaded 1
            {| f_module := "tasks.build"; f_body := Sample.app_build; f_opts := Some 1 |}
            [Sample.opt_verbose; Sample.opt_x]
            [("x", VInt 5); ("verbose", VBool false)] _ _ _ _ _ _ _));
    vm_compute; reflexivity.
Defined.

(** C6.  A function definition under the decorators [ds], written top to
    bottom, one of them [@taskm.task(name)]: the option list of the new
    function holds the descriptors of the [@taskm.option] decorators in the
    reverse of their textual order.  A dispatch of [name] calls
    [add_argument] with the descriptors in the order of that list, each once,
    up to one that is rejected; when none is rejected the parser has declared
    exactly that list. *)
Theorem stacked_options_are_reversed env modname ds body name extra st :
  DTask name ∈ ds →
  ∃ st1,
    exec_stmt modname (Def ds body) st = (OK tt, st1)
    ∧ tasks st1 !! name = Some (next_func st)
    ∧ opts_of st1 (next_func st) = rev (options_of ds)
    ∧ ∃ r st2 evs,
        invoke env name extra st1 = (r, st2)
        ∧ trace st2 = trace st1 ++ evs
        ∧ added_arguments evs
          = take (add_calls env [] (rev (options_of ds))) (rev (options_of ds))
        ∧ (∀ declared,
             add_result env [] (rev (options_of ds)) = OK declared →
             declared = rev (options_of ds)
             ∧ added_arguments evs = rev (options_of ds)).
Proof.
  intros Hin.
  destruct (exec_def_spec modname ds body st)
    as (st1 & Hrun & Hopts & Htasks & _).
  assert (tasks st1 !! name = Some (next_func st)) as Hname.
  { rewrite Htasks. by apply registered_lookup. }
  exists st1. split_and!; try done.
  destruct (invoke_found env name extra st1 _ Hname)
    as (st2 & _ & _ & _ & Htr & Hinv).
  rewrite Hopts in Hinv.
  eexists _, _, _. split; [apply Hinv|]. split; [simpl; by rewrite Htr|].
  rewrite dispatch_outcome_added. split; [done|].
  intros declared Hadd. apply add_result_OK in Hadd as [-> ->].
  split; [done|]. by rewrite firstn_all.
Qed.

Lemma stacked_options_are_reversed_witness :
  ∃ st1,
    exec_stmt "tasks.build"
      (Def [DTask "build"; DOption Sample.opt_x; DOption Sample.opt_verbose]
         Sample.app_build) Sample.plugins_loaded = (OK tt, st1)
    ∧ tasks st1 !! "build" = Some 1
    ∧ opts_of st1 1 = [Sample.opt_verbose; Sample.opt_x]
    ∧ ∃ r st2 evs,
        invoke Sample.env "build" ["--x"; "5"] st1 = (r, st2)
        ∧ trace st2 = trace st1 ++ evs
        ∧ added_arguments evs = [Sample.opt_verbose; Sample.opt_x]
        ∧ (∀ declared,
             add_result Sample.env [] [Sample.opt_verbose; Sample.opt_x] = OK declared →
             declared = [Sample.opt_verbose; Sample.opt_x]
             ∧ added_arguments evs = [Sample.opt_verbose; Sample.opt_x]).
Proof.
  apply (stacked_options_are_reversed Sample.env "tasks.build"
           [DTask "build"; DOption Sample.opt_x; DOption Sample.opt_verbose]
           Sample.app_build "build" ["--x"; "5"] Sample.plugins_loaded).
  apply list_elem_of_here.
Defined.

(** ** The parser of a task without options *)

(** The argument strings [_parse_optional] takes for the help option are
    those that look like it. *)
Lemma selects_help_spec s : Argparse.selects_help s = Argparse.help_like s.
Proof.
  unfold Argparse.selects_help, Argparse.help_like, Argparse.before_equals.
  destruct s as [|c1 s1]; [done|].
  destruct (Ascii.eqb_spec c1 "-") as [->|H1].
  2:{ unfold Argparse.parse_optional, Argparse.prefix_char_at. simpl.
      by destruct (Ascii.eqb_spec c1 "-"). }
  destruct s1 as [|c2 s2]; [done|].
  destruct (Ascii.eqb_spec c2 "h") as [->|H2].
  { destruct s2 as [|c3 s3]; [done|].
    unfold Argparse.parse_optional. simpl.
    destruct (if (c3 =? "=")%char then _ else _) as [[a b]|]; simpl; [|done].
    by destruct (Argparse.is_option_string _). }
  destruct (Ascii.eqb_spec c2 "-") as [->|H3].
  { unfold Argparse.parse_optional, Argparse.get_option_tuples. simpl.
    destruct (Argparse.is_option_string (String "-" (String "-" s2))) eqn:Hopt.
    { assert (s2 = "help") as ->; [|done].
      unfold Argparse.is_option_string in Hopt. simpl in Hopt.
      rewrite orb_false_r in Hopt. by apply String.eqb_eq in Hopt. }
    destruct (PyStr.split_once "=" s2) as [[a b]|]; simpl.
    - destruct (Argparse.is_option_string (String "-" (String "-" a))) eqn:Hopta.
      { assert (a = "help") as ->; [|done].
        unfold Argparse.is_option_string in Hopta. simpl in Hopta.
        rewrite orb_false_r in Hopta. by apply String.eqb_eq in Hopta. }
      by destruct (PyStr.startswith "help" a).
    - by destruct (PyStr.startswith "help" s2). }
  destruct c2 as [[] [] [] [] [] [] [] []]; try done;
    unfold Argparse.parse_optional, Argparse.get_option_tuples; simpl;
    try done;
    destruct (PyStr.split_once "=" s2) as [[a b]|]; simpl; done.
Qed.

Lemma classify_strings arg_strings : (Argparse.classify arg_strings).*1 = arg_strings.
Proof.
  induction arg_strings as [|s rest IH]; [done|]. simpl.
  destruct (String.eqb s "--").
  - simpl. f_equal. clear IH. induction rest as [|t rest IH]; [done|].
    simpl. by f_equal.
  - simpl. by f_equal.
Qed.

(** The argument strings that were passed over are all left over. *)
Lemma consume_extras items acc extras :
  Argparse.consume items acc = inl extras → extras = acc ++ items.*1.
Proof.
  revert acc. induction items as [|[s o] items IH]; intros acc; simpl.
  - intros [= <-]. by rewrite app_nil_r.
  - destruct o as [|os [explicit_arg|]|ms].
    + intros H. apply IH in H as ->. by rewrite <- app_assoc.
    + by destruct (Argparse.consume_explicit os explicit_arg).
    + done.
    + intros H. apply IH in H as ->. by rewrite <- app_assoc.
Qed.

(** The loop ends early only to print the help or to report an error. *)
Lemma consume_exit items acc exit :
  Argparse.consume items acc = inr exit →
  exit = Argparse.HelpExit ∨ ∃ err, exit = Argparse.UsageError err.
Proof.
  revert acc. induction items as [|[s o] items IH]; intros acc; simpl; [done|].
  destruct o as [|os [explicit_arg|]|ms].
  - apply IH.
  - destruct (Argparse.consume_explicit os explicit_arg); intros [= <-]; eauto.
  - intros [= <-]. eauto.
  - apply IH.
Qed.

(** With argument strings the parser exits: it prints the help, or it
    reports an error. *)
Lemma parse_args_bare_exits arg_strings :
  arg_strings ≠ [] →
  Argparse.parse_args_bare arg_strings = Argparse.HelpExit
  ∨ ∃ err, Argparse.parse_args_bare arg_strings = Argparse.UsageError err.
Proof.
  intros Hne. unfold Argparse.parse_args_bare.
  destruct (Argparse.first_ambiguous _) as [[s ms]|]; [eauto|].
  destruct (Argparse.consume _ []) as [[|x extras]|exit] eqn:Hc.
  - apply consume_extras in Hc. simpl in Hc. by rewrite classify_strings in Hc.
  - eauto.
  - apply consume_exit in Hc as [->|[err ->]]; eauto.
Qed.

(** Argument strings none of which looks like the help option are all
    passed over. *)
Lemma no_help_classify arg_strings :
  Argparse.no_help arg_strings = true →
  Argparse.classify arg_strings = (λ a, (a, Argparse.NoAction)) <$> arg_strings.
Proof.
  unfold Argparse.no_help.
  induction arg_strings as [|s rest IH]; [done|]. simpl.
  destruct (String.eqb s "--"); [done|]. simpl.
  intros H. apply andb_true_iff in H as [Hs Hrest].
  rewrite (IH Hrest). f_equal.
  rewrite <- selects_help_spec in Hs. unfold Argparse.selects_help in Hs.
  by destruct (Argparse.parse_optional s).
Qed.

Lemma consume_no_action arg_strings acc :
  Argparse.consume ((λ a, (a, Argparse.NoAction)) <$> arg_strings) acc
  = inl (acc ++ arg_strings).
Proof.
  revert acc. induction arg_strings as [|s rest IH]; intros acc; simpl.
  - by rewrite app_nil_r.
  - rewrite IH. by rewrite <- app_assoc.
Qed.

Lemma first_ambiguous_no_action arg_strings :
  Argparse.first_ambiguous ((λ a, (a, Argparse.NoAction)) <$> arg_strings) = None.
Proof. induction arg_strings as [|s rest IH]; [done|apply IH]. Qed.

Lemma parse_args_bare_no_help arg_strings :
  arg_strings ≠ [] →
  Argparse.no_help arg_strings = true →
  Argparse.parse_args_bare arg_strings
  = Argparse.UsageError (Unrecognized arg_strings).
Proof.
  intros Hne Hno. unfold Argparse.parse_args_bare.
  rewrite (no_help_classify _ Hno), first_ambiguous_no_action, consume_no_action.
  simpl. by destruct arg_strings.
Qed.

(** What the parser without declared arguments does on some command
    lines. *)
Example parse_args_bare_samples :
  Argparse.parse_args_bare [] = Argparse.Parsed []
  ∧ Argparse.parse_args_bare ["-h"] = Argparse.HelpExit
  ∧ Argparse.parse_args_bare ["now"; "--he"] = Argparse.HelpExit
  ∧ Argparse.parse_args_bare ["now"; "--fast"; "-1"]
    = Argparse.UsageError (Unrecognized ["now"; "--fast"; "-1"])
  ∧ Argparse.parse_args_bare ["--"; "-h"]
    = Argparse.UsageError (Unrecognized ["--"; "-h"])
  ∧ Argparse.parse_args_bare ["-hx"] = Argparse.UsageError (IgnoredExplicit "-h" "x")
  ∧ Argparse.parse_args_bare ["--help=1"]
    = Argparse.UsageError (IgnoredExplicit "--help" "1").
Proof. by split_and!. Qed.

(** An argument string that does not begin with [-] does not look like the
    help option, and is not [--]. *)
Lemma plain_not_help_like s :
  PyStr.startswith s "-" = false →
  Argparse.help_like s = false ∧ String.eqb s "--" = false.
Proof.
  unfold Argparse.help_like.
  destruct s as [|c s]; [done|]. simpl.
  rewrite andb_true_r. by intros ->.
Qed.

Lemma plain_no_help arg_strings :
  forallb (λ s, negb (PyStr.startswith s "-")) arg_strings = true →
  Argparse.no_help arg_strings = true.
Proof.
  unfold Argparse.no_help.
  induction arg_strings as [|s rest IH]; [done|]. simpl.
  intros H. apply andb_true_iff in H as [Hs Hrest].
  apply negb_true_iff in Hs. apply plain_not_help_like in Hs as [Hs ->].
  simpl. rewrite Hs. simpl. by apply IH.
Qed.

(** C7, as the code has it.  For a registered task without options: with no
    extra argument the task is called once, without keyword arguments, and
    the dispatcher yields what its body yields.  With extra arguments the
    task is never called and the parser exits.  When no argument string
    before the first [--] looks like the help option, which
    [ArgumentParser] declares by itself, the exit is the usage error for the
    unrecognized arguments, all of them, with status 2; so it is when no
    argument string begins with [-].  The argument [-h] prints the help and
    exits with status 0. *)
Theorem task_without_options env name func fo st :
  tasks st !! name = Some func →
  funcs st !! func = Some fo →
  opts_of st func = [] →
  (∃ st' evs,
     invoke env name [] st = (f_body fo [], st')
     ∧ trace st' = trace st ++ evs ∧ calls_of evs = [(func, [])])
  ∧ (∀ extra, extra ≠ [] →
       ∃ status st' evs,
         invoke env name extra st = (Raise (SystemExit status), st')
         ∧ trace st' = trace st ++ evs ∧ calls_of evs = [])
  ∧ (∀ extra, extra ≠ [] → Argparse.no_help extra = true →
       ∃ st' evs,
         invoke env name extra st = (Raise (SystemExit 2), st')
         ∧ trace st' = trace st ++ evs
         ∧ last evs = Some (EvParserError (Unrecognized extra)))
  ∧ (∀ extra, extra ≠ [] →
       forallb (λ s, negb (PyStr.startswith s "-")) extra = true →
       Argparse.no_help extra = true)
  ∧ (∃ st' evs,
       invoke env name ["-h"] st = (Raise (SystemExit 0), st')
       ∧ trace st' = trace st ++ evs ∧ last evs = Some EvPrintHelp).
Proof.
  intros Hname Hfo Hopts.
  assert (∀ extra, ∃ st',
            trace st' = trace st
            ∧ invoke env name extra st
              = (let out := dispatch_outcome env func (Some (f_body fo)) [] extra in
                 (out.1, add_events out.2 st'))) as Hinv.
  { intros extra.
    destruct (invoke_found env name extra st func Hname) as (st' & _ & _ & _ & Htr & Hrun).
    rewrite Hopts, Hfo in Hrun. eauto. }
  split_and!.
  - destruct (Hinv []) as (st' & Htr & Hrun).
    eexists _, _. split; [apply Hrun|]. simpl. by rewrite Htr.
  - intros extra Hne. destruct (Hinv extra) as (st' & Htr & Hrun).
    revert Hrun. unfold dispatch_outcome, parse_outcome. simpl.
    destruct (parse_args_bare_exits extra Hne) as [->|[err ->]]; simpl; intros Hrun;
      eexists _, _, _; (split; [apply Hrun|]); simpl; by rewrite Htr.
  - intros extra Hne Hno. destruct (Hinv extra) as (st' & Htr & Hrun).
    revert Hrun. unfold dispatch_outcome, parse_outcome. simpl.
    rewrite (parse_args_bare_no_help extra Hne Hno). simpl. intros Hrun.
    eexists _, _. split; [apply Hrun|]. simpl. by rewrite Htr.
  - intros extra _. apply plain_no_help.
  - destruct (Hinv ["-h"]) as (st' & Htr & Hrun).
    eexists _, _. split; [apply Hrun|]. simpl. by rewrite Htr.
Qed.

Lemma task_without_options_witness :
  (∃ st' evs,
     invoke Sample.env "deploy" [] Sample.loaded = (OK VNone, st')
     ∧ trace st' = trace Sample.loaded ++ evs ∧ calls_of evs = [(2, [])])
  ∧ (∃ st' evs,
       invoke Sample.env "deploy" ["now"; "fast"] Sample.loaded
       = (Raise (SystemExit 2), st')
       ∧ trace st' = trace Sample.loaded ++ evs
       ∧ last evs = Some (EvParserError (Unrecognized ["now"; "fast"]))).
Proof.
  pose proof (task_without_options Sample.env "deploy" 2
                {| f_module := "tasks.deploy"; f_body := Sample.deploy; f_opts := None |}
                Sample.loaded eq_refl eq_refl eq_refl) as (H0 & _ & Hno & _ & _).
  split; [exact H0|].
  exact (Hno ["now"; "fast"] ltac:(discriminate) eq_refl).
Defined.

(** C7 as stated fails: with the task [deploy] of the sample, which has no
    option, the extra argument [-h] makes the parser print the help and exit
    with status 0, which is no parse error. *)
Lemma help_is_no_parse_error :
  ¬ (∀ env name func st extra,
       tasks st !! name = Some func →
       opts_of st func = [] →
       extra ≠ [] →
       ∃ st' err,
         invoke env name extra st = (Raise (SystemExit 2), st')
         ∧ last (trace st') = Some (EvParserError err)).
Proof.
  intros H.
  destruct (H Sample.env "deploy" 2 Sample.loaded ["-h"] eq_refl eq_refl
              ltac:(discriminate)) as (st' & err & Hrun & _).
  vm_compute in Hrun. discriminate Hrun.
Qed.

(** ** The application task directory *)

Section AppTasks.

Context (env : Env).

Lemma load_app_tasks_listed app entries st :
  fs env !! tasks_root app = Some (Directory entries) →
  _load_app_tasks env app st
  = match for_ entries (load_entry env (tasks_root app)) st with
    | (OK _, st1) => (OK true, st1)
    | (Raise e, st1) => (Raise e, st1)
    end.
Proof.
  intros Hdir. unfold _load_app_tasks, os_listdir. rewrite Hdir. munfold.
  by destruct (for_ entries _ st) as [[[]|e] st1].
Qed.

(** The test of the loop, in words: not the package initializer, a name
    that ends in [.py], a regular file.  The module path is [tasks.] and the
    name without its last three characters. *)
Lemma is_task_file_spec root m :
  is_task_file env root m = true
  ↔ m ≠ "__init__.py"
    ∧ (∃ stem, m = stem +:+ ".py" ∧ module_path m = "tasks." +:+ stem)
    ∧ fs env !! OsPath.join root m = Some RegularFile.
Proof.
  unfold is_task_file, OsPath.isfile. rewrite !andb_true_iff, negb_true_iff.
  rewrite String.eqb_neq, endswith_spec. split.
  - intros [[Hinit [stem ->]] Hfile]. split_and!; [done| |].
    + exists stem. split; [done|]. unfold module_path.
      f_equal. apply (drop_last_append stem ".py").
    + by destruct (fs env !! _) as [[]|].
  - intros (Hinit & (stem & -> & _) & Hfile). rewrite Hfile. eauto.
Qed.

End AppTasks.

(** C8.  With the directory [<root>/tasks] listing [entries], the command
    imports, in the order of the listing, the module [tasks.<stem>] of every
    entry [<stem>.py] other than [__init__.py] that is a regular file, and
    nothing else: these imports are all the events of the loader.  It looks
    at the entries of that one directory only.  When an import raises, the
    imports are those of the task files up to that one. *)
Theorem app_tasks_imports env app entries st r st' :
  fs env !! tasks_root app = Some (Directory entries) →
  _load_app_tasks env app st = (r, st') →
  (∀ m, is_task_file env (tasks_root app) m = true
        ↔ m ≠ "__init__.py"
          ∧ (∃ stem, m = stem +:+ ".py" ∧ module_path m = "tasks." +:+ stem)
          ∧ fs env !! OsPath.join (tasks_root app) m = Some RegularFile)
  ∧ ∃ k,
      trace st' = trace st
        ++ (EvImport <$> (module_path <$>
              List.filter (is_task_file env (tasks_root app)) (take k entries)))
      ∧ (r = OK true → take k entries = entries).
Proof.
  intros Hdir Hrun. split; [apply is_task_file_spec|].
  rewrite (load_app_tasks_listed env app entries st Hdir) in Hrun.
  destruct (for_ entries _ st) as [[[]|e] st1] eqn:Hloop;
    injection Hrun as <- <-;
    apply load_entries_trace in Hloop as (k & Htr & Hk);
    exists k; split; [done|auto|done|done].
Qed.

Lemma app_tasks_imports_witness :
  ∃ k,
    trace Sample.loaded = trace Sample.plugins_loaded
      ++ (EvImport <$> (module_path <$>
            List.filter (is_task_file Sample.env "/srv/app/tasks")
              (take k ["__init__.py"; "build.py"; "notes.txt"; "pkg.py"; "deploy.py"])))
    ∧ (OK true = OK true →
       take k ["__init__.py"; "build.py"; "notes.txt"; "pkg.py"; "deploy.py"]
       = ["__init__.py"; "build.py"; "notes.txt"; "pkg.py"; "deploy.py"]).
Proof.
  refine (proj2 (app_tasks_imports Sample.env Sample.app
                   ["__init__.py"; "build.py"; "notes.txt"; "pkg.py"; "deploy.py"]
                   Sample.plugins_loaded (OK true) Sample.loaded _ _));
    vm_compute; reflexivity.
Defined.

(** The imports of the sample application, spelled out. *)
Example sample_imports :
  imports_of (trace Sample.loaded) = ["tasks.build"; "tasks.deploy"].
Proof. vm_compute. reflexivity. Qed.

(** C10.  Without the directory [<root>/tasks] the loader raises the
    [FileNotFoundError] of [os.listdir] and leaves the state as it was.  When
    it succeeds it returns [True] and the directory exists; an empty
    directory makes it succeed without any effect. *)
Theorem app_tasks_needs_directory env app st :
  (fs env !! tasks_root app = None →
   _load_app_tasks env app st = (Raise (FileNotFoundError (tasks_root app)), st))
  ∧ (∀ b st', _load_app_tasks env app st = (OK b, st') →
       b = true ∧ ∃ entries, fs env !! tasks_root app = Some (Directory entries))
  ∧ (fs env !! tasks_root app = Some (Directory []) →
     _load_app_tasks env app st = (OK true, st)).
Proof.
  split_and!.
  - intros Hdir. unfold _load_app_tasks, os_listdir. by rewrite Hdir.
  - intros b st'. unfold _load_app_tasks, os_listdir.
    destruct (fs env !! tasks_root app) as [[|entries]|] eqn:Hdir; [done| |done].
    intros Hrun. split; [|eauto]. revert Hrun. munfold.
    destruct (for_ entries _ st) as [[[]|e] st1]; by intros [= <- _].
  - intros Hdir. by rewrite (load_app_tasks_listed env app [] st Hdir).
Qed.

Lemma app_tasks_needs_directory_witness :
  _load_app_tasks Sample.env {| root_path := "/srv/nowhere" |} init
  = (Raise (FileNotFoundError "/srv/nowhere/tasks"), init)
  ∧ _load_app_tasks Sample.env {| root_path := "/srv/empty" |} init = (OK true, init)
  ∧ ∃ entries, fs Sample.env !! "/srv/app/tasks" = Some (Directory entries).
Proof.
  split_and!.
  - exact (proj1 (app_tasks_needs_directory Sample.env
                    {| root_path := "/srv/nowhere" |} init) eq_refl).
  - exact (proj2 (proj2 (app_tasks_needs_directory Sample.env
                           {| root_path := "/srv/empty" |} init)) eq_refl).
  - refine (proj2 (proj1 (proj2 (app_tasks_needs_directory Sample.env Sample.app
                                   Sample.plugins_loaded))
                     true Sample.loaded _)).
    vm_compute. reflexivity.
Defined.

(** ** Who registered a name *)

Lemma registered_lookup_cases ds func t name :
  registered ds func t !! name = Some func
  ∨ registered ds func t !! name = t !! name.
Proof.
  induction ds as [|[n|o] ds IH]; simpl; [by right| |done].
  destruct (decide (n = name)) as [->|Hne].
  - left. apply lookup_insert_eq.
  - by rewrite lookup_insert_ne.
Qed.

Section Registration.

Context (env : Env) (name : string) (Q : string → Prop) (n0 : nat).

Lemma exec_stmt_grows modname s st st' :
  (n0 ≤ next_func st)%nat →
  exec_stmt modname s st = (OK tt, st') →
  (n0 ≤ next_func st')%nat.
Proof.
  intros Hn. destruct s as [ds body|e]; [|done].
  destruct (exec_def_spec modname ds body st) as (st1 & -> & _ & _ & _ & Hnext & _).
  intros [= <-]. lia.
Qed.

(** A definition in a module of [Q] keeps the entry or registers its own
    function. *)
Lemma exec_stmt_keeps modname s st st' :
  Q modname →
  (n0 ≤ next_func st)%nat →
  registered_by name Q n0 st →
  exec_stmt modname s st = (OK tt, st') →
  registered_by name Q n0 st'.
Proof.
  intros HQ Hn (f & md & Hf & Hmd & HQmd & Hrange).
  destruct s as [ds body|e]; [|done].
  destruct (exec_def_spec modname ds body st)
    as (st1 & -> & _ & Htasks & _ & Hnext & Hnew & _ & Hold).
  intros [= <-].
  destruct (registered_lookup_cases ds (next_func st) (tasks st) name) as [Hreg|Hreg].
  - exists (next_func st), modname. rewrite Htasks, Hnext.
    split_and!; [done|done|done|lia|lia].
  - exists f, md. rewrite Htasks, Hreg, Hnext.
    split_and!; [done| |done|lia|lia].
    rewrite Hold; [done|lia].
Qed.

Lemma exec_stmt_registers modname ds body st st' :
  Q modname →
  (n0 ≤ next_func st)%nat →
  DTask name ∈ ds →
  exec_stmt modname (Def ds body) st = (OK tt, st') →
  registered_by name Q n0 st'.
Proof.
  intros HQ Hn Hin.
  destruct (exec_def_spec modname ds body st)
    as (st1 & -> & _ & Htasks & _ & Hnext & Hnew & _).
  intros [= <-]. exists (next_func st), modname.
  rewrite Htasks, Hnext. split_and!; [|done|done|lia|lia].
  by apply registered_lookup.
Qed.

Lemma exec_module_grows modname body st st' :
  (n0 ≤ next_func st)%nat →
  exec_module modname body st = (OK tt, st') →
  (n0 ≤ next_func st')%nat.
Proof.
  apply (for_preserve (λ s, (n0 ≤ next_func s)%nat)).
  intros s sa sb _. apply exec_stmt_grows.
Qed.

Lemma exec_module_keeps modname body st st' :
  Q modname →
  (n0 ≤ next_func st)%nat →
  registered_by name Q n0 st →
  exec_module modname body st = (OK tt, st') →
  registered_by name Q n0 st'.
Proof.
  intros HQ Hn Hreg Hrun.
  assert ((n0 ≤ next_func st')%nat ∧ registered_by name Q n0 st') as [_ ?]; [|done].
  apply (for_preserve (λ s, (n0 ≤ next_func s)%nat ∧ registered_by name Q n0 s)
           (exec_stmt modname) body) with (st := st); [|done|done].
  intros s sa sb _ [Ha Hb] Hs. split.
  - by eapply exec_stmt_grows.
  - by eapply exec_stmt_keeps.
Qed.

Lemma exec_module_registers modname body st st' :
  Q modname →
  registers name body →
  (n0 ≤ next_func st)%nat →
  exec_module modname body st = (OK tt, st') →
  registered_by name Q n0 st'.
Proof.
  intros HQ (ds & b & Hdef & Hin) Hn.
  apply (for_establish (λ s, (n0 ≤ next_func s)%nat) (registered_by name Q n0)
           (exec_stmt modname) body (Def ds b)); try done.
  - intros s sa sb _. apply exec_stmt_grows.
  - intros s sa sb _. by apply exec_stmt_keeps.
  - intros sa sb Ha. by apply exec_stmt_registers.
Qed.

Lemma import_module_grows modname st st' :
  (n0 ≤ next_func st)%nat →
  import_module env modname st = (OK tt, st') →
  (n0 ≤ next_func st')%nat.
Proof.
  intros Hn Hrun.
  destruct (import_module_cases env _ _ _ _ Hrun)
    as [(_ & _ & ->) | [(_ & _ & [=] & _) | (body & s1 & _ & _ & Hexec & ->)]]; [done|].
  exact (exec_module_grows modname body (set_sys_modules (cons modname) st) s1 Hn Hexec).
Qed.

Lemma import_module_keeps modname st st' :
  Q modname →
  (n0 ≤ next_func st)%nat →
  registered_by name Q n0 st →
  import_module env modname st = (OK tt, st') →
  registered_by name Q n0 st'.
Proof.
  intros HQ Hn Hreg Hrun.
  destruct (import_module_cases env _ _ _ _ Hrun)
    as [(_ & _ & ->) | [(_ & _ & [=] & _) | (body & s1 & _ & _ & Hexec & ->)]]; [done|].
  exact (exec_module_keeps modname body (set_sys_modules (cons modname) st) s1
           HQ Hn Hreg Hexec).
Qed.

(** A module that registers [name] has done so once it is imported: when
    it is executed now, or else when it was loaded before. *)
Lemma import_module_registers modname body st st' :
  Q modname →
  modules env !! modname = Some body →
  registers name body →
  (n0 ≤ next_func st)%nat →
  (modname ∈ sys_modules st → registered_by name Q n0 st) →
  import_module env modname st = (OK tt, st') →
  registered_by name Q n0 st'.
Proof.
  intros HQ Hbody Hreg Hn Hloaded Hrun.
  destruct (import_module_cases env _ _ _ _ Hrun)
    as [(Hin & _ & ->) | [(_ & _ & [=] & _) | (body' & s1 & _ & Hbody' & Hexec & ->)]];
    [by apply Hloaded|].
  rewrite Hbody in Hbody'. injection Hbody' as <-.
  exact (exec_module_registers modname body (set_sys_modules (cons modname) st) s1
           HQ Hreg Hn Hexec).
Qed.

(** The same for the import of any module of [Q]: afterwards, [modname] is
    among the loaded modules only if [name] is registered. *)
Lemma import_module_loaded mn modname body st st' :
  Q mn →
  modules env !! modname = Some body →
  registers name body →
  (n0 ≤ next_func st)%nat →
  (modname ∈ sys_modules st → registered_by name Q n0 st) →
  import_module env mn st = (OK tt, st') →
  modname ∈ sys_modules st' → registered_by name Q n0 st'.
Proof.
  intros HQ Hbody Hreg Hn Hloaded Hrun Hin.
  destruct (import_module_cases env _ _ _ _ Hrun)
    as [(_ & _ & ->) | [(_ & _ & [=] & _) | (body' & s1 & _ & Hbody' & Hexec & ->)]];
    [by apply Hloaded|].
  pose proof (exec_module_sys_modules _ _ _ _ _ Hexec) as Hsys. simpl in Hsys.
  rewrite Hsys in Hin. apply elem_of_cons in Hin as [->|Hin].
  - rewrite Hbody in Hbody'. injection Hbody' as <-.
    exact (exec_module_registers mn body (set_sys_modules (cons mn) st) s1
             HQ Hreg Hn Hexec).
  - exact (exec_module_keeps mn body' (set_sys_modules (cons mn) st) s1
             HQ Hn (Hloaded Hin) Hexec).
Qed.

(** A loop that imports one module of [Q] per element, after events. *)
Lemma loop_registers {A} (load : A → M unit) (mod_of : A → option string) xs x0 modname body :
  (∀ x st, x ∈ xs →
     match mod_of x with
     | Some mn => Q mn ∧ ∃ evs, load x st = import_module env mn (add_events evs st)
     | None => load x st = (OK tt, st)
     end) →
  x0 ∈ xs →
  mod_of x0 = Some modname →
  modules env !! modname = Some body →
  registers name body →
  ∀ st st', (n0 ≤ next_func st)%nat →
    modname ∉ sys_modules st →
    for_ xs load st = (OK tt, st') →
    registered_by name Q n0 st'.
Proof.
  intros Hload Hin Hmod Hbody Hreg st st' Hn Hnot.
  apply (for_establish
           (λ s, (n0 ≤ next_func s)%nat
                 ∧ (modname ∈ sys_modules s → registered_by name Q n0 s))
           (registered_by name Q n0) load xs x0 Hin); [| | |done].
  - intros x sa sb Hx [Ha Hb]. specialize (Hload x sa Hx).
    destruct (mod_of x) as [mn|].
    + destruct Hload as (HQ & evs & ->). intros Hrun. split.
      * by apply import_module_grows in Hrun.
      * exact (import_module_loaded mn modname body (add_events evs sa) sb
                 HQ Hbody Hreg Ha Hb Hrun).
    + rewrite Hload. by intros [= <-].
  - intros x sa sb Hx [Ha _] Hb. specialize (Hload x sa Hx).
    destruct (mod_of x) as [mn|].
    + destruct Hload as (HQ & evs & ->). by apply import_module_keeps.
    + rewrite Hload. by intros [= <-].
  - intros sa sb [Ha Hb]. specialize (Hload x0 sa Hin). rewrite Hmod in Hload.
    destruct Hload as (HQ & evs & ->).
    exact (import_module_registers modname body (add_events evs sa) sb
             HQ Hbody Hreg Ha Hb).
Qed.

End Registration.

Lemma load_plugin_tasks_OK env st b st' :
  _load_plugin_tasks env st = (OK b, st') →
  for_ (entry_points env) (ep_load env) st = (OK tt, st').
Proof.
  unfold _load_plugin_tasks. munfold.
  destruct (for_ (entry_points env) (ep_load env) st) as [[[]|e] st1]; [|done].
  by intros [= _ <-].
Qed.

Lemma load_app_tasks_OK env app entries st b st' :
  fs env !! tasks_root app = Some (Directory entries) →
  _load_app_tasks env app st = (OK b, st') →
  for_ entries (load_entry env (tasks_root app)) st = (OK tt, st').
Proof.
  intros Hdir. rewrite (load_app_tasks_listed env app entries st Hdir).
  destruct (for_ entries _ st) as [[[]|e] st1]; [|done].
  by intros [= _ <-].
Qed.

(** The plugin loader enters no module in [sys.modules] but entry points. *)
Lemma load_plugins_sys_modules env st st' x :
  for_ (entry_points env) (ep_load env) st = (OK tt, st') →
  x ∈ sys_modules st' → x ∈ sys_modules st ∨ x ∈ entry_points env.
Proof.
  intros Hrun.
  apply (for_preserve (λ s, x ∈ sys_modules s → x ∈ sys_modules st ∨ x ∈ entry_points env)
           (ep_load env) (entry_points env)) with (st := st) (st' := st');
    [|by left|done].
  intros m sa sb Hm Ha Hstep Hx.
  change (ep_load env m sa)
    with (import_module env m (add_events [EvLoadEntryPoint m] sa)) in Hstep.
  apply import_module_sys_modules in Hstep as [Hsame|[_ Hmore]].
  - rewrite Hsame in Hx. by apply Ha.
  - rewrite Hmore in Hx. apply elem_of_cons in Hx as [->|Hx]; [by right|by apply Ha].
Qed.

(** C4.  [run] loads the plugins, then the application tasks, and then
    looks the name up.  A plugin module and an application task file both
    register [name]; neither module is loaded when the command starts, and
    the task file is not itself an entry point, so that each registers
    while its loader runs.  Both loaders return.  After the plugins the
    registry holds under [name] a function [fp] of a plugin module; after
    the application tasks it holds a function [f] that a task file of the
    application defined, created while the application tasks were loaded
    and so another object than [fp].  [run] is the dispatch of [name] in
    the state after the application tasks: its lookup yields [f], and what
    it does from there is what the body and the options of [f] make it do. *)
Theorem application_task_overrides_plugin
    env args extra app name entries st0 b1 st1 b2 st2 plugin pbody m body :
  create_app env (args_workdir args) = OK app →
  args_task args = name →
  _load_plugin_tasks env st0 = (OK b1, st1) →
  _load_app_tasks env app st1 = (OK b2, st2) →
  plugin ∈ entry_points env →
  plugin ∉ sys_modules st0 →
  modules env !! plugin = Some pbody →
  registers name pbody →
  fs env !! tasks_root app = Some (Directory entries) →
  m ∈ entries →
  is_task_file env (tasks_root app) m = true →
  module_path m ∉ sys_modules st0 →
  module_path m ∉ entry_points env →
  modules env !! module_path m = Some body →
  registers name body →
  ∃ fp pfo f fo m',
    tasks st1 !! name = Some fp
    ∧ funcs st1 !! fp = Some pfo
    ∧ f_module pfo ∈ entry_points env
    ∧ tasks st2 !! name = Some f
    ∧ TaskManager.getitem name st2 = (OK f, st2)
    ∧ funcs st2 !! f = Some fo
    ∧ m' ∈ entries
    ∧ is_task_file env (tasks_root app) m' = true
    ∧ f_module fo = module_path m'
    ∧ (fp < next_func st1 ≤ f)%nat
    ∧ f ≠ fp
    ∧ run env args extra st0 = invoke env name extra st2
    ∧ ∃ st', trace st' = trace st2
        ∧ run env args extra st0
          = (let out := dispatch_outcome env f (Some (f_body fo)) (opts_of st2 f) extra in
             (out.1, add_events out.2 st')).
Proof.
  intros Happ Hname Hplug Hload Hep Hpnot Hpbody Hpreg Hdir Hm Hfile Hmnot Hmep Hbody Hreg.
  assert (run env args extra st0 = invoke env name extra st2) as Hrun.
  { unfold run.
    rewrite (bind_OK _ _ st0 app st0); [|by unfold lift; rewrite Happ].
    rewrite (bind_OK _ _ _ _ _ Hplug). rewrite (bind_OK _ _ _ _ _ Hload).
    by rewrite Hname. }
  apply load_plugin_tasks_OK in Hplug.
  apply (load_app_tasks_OK env app entries) in Hload; [|done].
  assert (module_path m ∉ sys_modules st1) as Hmnot1.
  { intros Hx. by apply (load_plugins_sys_modules env st0 st1 _ Hplug) in Hx as [Hx|Hx]. }
  assert (registered_by name (λ md, md ∈ entry_points env) (next_func st0) st1)
    as (fp & pmd & Hfp & Hpmd & HQp & Hprange).
  { apply (loop_registers env name _ (next_func st0) (ep_load env) Some
             (entry_points env) plugin plugin pbody) with (st := st0); try done.
    intros x st Hx. split; [done|]. by exists [EvLoadEntryPoint x]. }
  assert (registered_by name
            (λ md, ∃ m', m' ∈ entries ∧ is_task_file env (tasks_root app) m' = true
                         ∧ md = module_path m') (next_func st1) st2)
    as (f & md & Hf & Hmd & (m' & Hm' & Hfile' & ->) & Hrange).
  { apply (loop_registers env name _ (next_func st1) (load_entry env (tasks_root app))
             (λ x, if is_task_file env (tasks_root app) x
                   then Some (module_path x) else None)
             entries m (module_path m) body) with (st := st1); try done.
    - intros x st Hx. unfold load_entry.
      destruct (is_task_file env (tasks_root app) x) eqn:Hx'; [|done].
      split; [by exists x|]. by exists [EvImport (module_path x)].
    - by rewrite Hfile. }
  destruct (funcs st1 !! fp) as [pfo|] eqn:Hpfo; [|done].
  destruct (funcs st2 !! f) as [fo|] eqn:Hfo; [|done].
  injection Hpmd as <-. injection Hmd as Hmd.
  destruct (invoke_found env name extra st2 f Hf) as (st' & _ & _ & _ & Htr & Hinv).
  rewrite Hfo in Hinv.
  exists fp, pfo, f, fo, m'.
  split_and!; [done|done|done|done| |done|done|done|done|lia|lia|lia|done|].
  - unfold TaskManager.getitem. by rewrite Hf.
  - exists st'. split; [done|]. by rewrite Hrun.
Qed.

Lemma application_task_overrides_plugin_witness :
  ∃ fp pfo f fo m',
    tasks Sample.plugins_loaded !! "build" = Some fp
    ∧ funcs Sample.plugins_loaded !! fp = Some pfo
    ∧ f_module pfo ∈ entry_points Sample.env
    ∧ tasks Sample.loaded !! "build" = Some f
    ∧ TaskManager.getitem "build" Sample.loaded = (OK f, Sample.loaded)
    ∧ funcs Sample.loaded !! f = Some fo
    ∧ m' ∈ ["__init__.py"; "build.py"; "notes.txt"; "pkg.py"; "deploy.py"]
    ∧ is_task_file Sample.env (tasks_root Sample.app) m' = true
    ∧ f_module fo = module_path m'
    ∧ (fp < next_func Sample.plugins_loaded ≤ f)%nat
    ∧ f ≠ fp
    ∧ run Sample.env Sample.build_args ["--x"; "5"] init
      = invoke Sample.env "build" ["--x"; "5"] Sample.loaded
    ∧ ∃ st', trace st' = trace Sample.loaded
        ∧ run Sample.env Sample.build_args ["--x"; "5"] init
          = (let out := dispatch_outcome Sample.env f (Some (f_body fo))
                          (opts_of Sample.loaded f) ["--x"; "5"] in
             (out.1, add_events out.2 st')).
Proof.
  apply (application_task_overrides_plugin Sample.env Sample.build_args ["--x"; "5"]
           Sample.app "build"
           ["__init__.py"; "build.py"; "notes.txt"; "pkg.py"; "deploy.py"]
           init true Sample.plugins_loaded true Sample.loaded
           "seaplugin.tasks" [Def [DTask "build"; DOption Sample.opt_x] Sample.plugin_build]
           "build.py"
           [Def [DTask "build"; DOption Sample.opt_x; DOption Sample.opt_verbose]
              Sample.app_build]).
  - reflexivity.
  - reflexivity.
  - vm_compute. reflexivity.
  - vm_compute. reflexivity.
  - apply list_elem_of_here.
  - apply not_elem_of_nil.
  - reflexivity.
  - eexists _, _. split; apply list_elem_of_here.
  - reflexivity.
  - apply list_elem_of_further, list_elem_of_here.
  - reflexivity.
  - apply not_elem_of_nil.
  - intros Hx. apply elem_of_cons in Hx as [Hx|Hx];
      [vm_compute in Hx; discriminate Hx|by apply not_elem_of_nil in Hx].
  - reflexivity.
  - eexists _, _. split; apply list_elem_of_here.
Defined.

(** The sample: the entry of [build] is the function of the application. *)
Example sample_build_entry :
  tasks Sample.plugins_loaded !! "build" = Some 0
  ∧ tasks Sample.loaded !! "build" = Some 1
  ∧ f_module <$> funcs Sample.loaded !! 1 = Some "tasks.build".
Proof. vm_compute. auto. Qed.

(** C5.  The directory lists [pre], then [m], then [post]; the task files
    among [pre] load, and the import of the task file [m] raises [e].  The
    loader raises [e] in the state in which the import left off.  Its
    imports are those of the task files of [pre] and of [m]: no entry of
    [post] is looked at, so the registry is what [pre] and the part of [m]
    before the error made it.  [run] raises [e] as well, from that state. *)
Theorem app_tasks_fail_fast env app pre m post st st1 e st2 :
  fs env !! tasks_root app = Some (Directory (pre ++ m :: post)) →
  for_ pre (load_entry env (tasks_root app)) st = (OK tt, st1) →
  is_task_file env (tasks_root app) m = true →
  import_string env (module_path m) st1 = (Raise e, st2) →
  _load_app_tasks env app st = (Raise e, st2)
  ∧ trace st2 = trace st
      ++ (EvImport <$> task_modules env (tasks_root app) pre ++ [module_path m])
  ∧ (∀ args extra st0 b,
       create_app env (args_workdir args) = OK app →
       _load_plugin_tasks env st0 = (OK b, st) →
       run env args extra st0 = (Raise e, st2)).
Proof.
  intros Hdir Hpre Hfile Himport.
  assert (_load_app_tasks env app st = (Raise e, st2)) as Hload.
  { rewrite (load_app_tasks_listed env app _ st Hdir), for_app, Hpre, for_cons.
    unfold load_entry at 1. by rewrite Hfile, Himport. }
  split_and!; [done| |].
  - apply load_entries_trace in Hpre as (k & Htr & Hk). rewrite (Hk eq_refl) in Htr.
    apply import_string_trace in Himport.
    rewrite Himport, Htr, fmap_app. by rewrite <- app_assoc.
  - intros args extra st0 b Happ Hplug. unfold run.
    rewrite (bind_OK _ _ st0 app st0); [|by unfold lift; rewrite Happ].
    rewrite (bind_OK _ _ _ _ _ Hplug). by apply bind_Raise.
Qed.

Lemma app_tasks_fail_fast_witness :
  ∃ st2,
    _load_app_tasks Sample.env Sample.broken init
    = (Raise (Raised "ValueError" "bad settings"), st2)
    ∧ trace st2 = [EvImport "tasks.a_bad"]
    ∧ tasks st2 !! "early" = Some 0
    ∧ tasks st2 !! "good" = None.
Proof.
  eexists.
  pose proof (app_tasks_fail_fast Sample.env Sample.broken [] "a_bad.py" ["b_good.py"]
                init init (Raised "ValueError" "bad settings") _
                eq_refl eq_refl eq_refl eq_refl) as (Hload & Htr & _).
  split_and!; [exact Hload|exact Htr|reflexivity|reflexivity].
Defined.

(** * Further properties of the code *)

(** ** The order of the task files *)

Section ListingOrder.

Context (env : Env) (name : string) (Q : string → Prop) (n0 : nat).



End ListingOrder.

Lemma string_app_inj_l a b c : a +:+ b = a +:+ c → b = c.
Proof. induction a as [|x a IH]; simpl; [done|]. intros [= H]. by apply IH. Qed.





(** ** The plugin loader *)

Lemma ep_load_trace env m st r st' :
  ep_load env m st = (r, st') → trace st' = trace st ++ [EvLoadEntryPoint m].
Proof.
  change (ep_load env m st) with (import_module env m (add_events [EvLoadEntryPoint m] st)).
  intros H. by apply import_module_trace in H.
Qed.

Lemma load_entry_points_trace env ms st r st' :
  for_ ms (ep_load env) st = (r, st') →
  ∃ k, trace st' = trace st ++ (EvLoadEntryPoint <$> take k ms)
       ∧ (r = OK tt → take k ms = ms).
Proof.
  revert st. induction ms as [|m ms IH]; intros st Hrun.
  - injection Hrun as <- <-. exists 0. by rewrite app_nil_r.
  - rewrite for_cons in Hrun.
    destruct (ep_load env m st) as [[[]|e] st1] eqn:Hm.
    + apply ep_load_trace in Hm. apply IH in Hrun as (k & Htr & Hk).
      exists (S k). split.
      * rewrite Htr, Hm. simpl. by rewrite <- app_assoc.
      * intros Hr. simpl. by rewrite (Hk Hr).
    + injection Hrun as <- <-. apply ep_load_trace in Hm.
      exists 1. split; [by rewrite Hm|discriminate].
Qed.



(** The sample with three entry points, the second not installed: the first
    two are loaded, in order, and the third is not. *)
Example faulty_plugins_loaded :
  _load_plugin_tasks Faulty.env init
  = (Raise (ImportError "seaplugin.missing"),
     add_events [EvLoadEntryPoint "seaplugin.missing"] Sample.plugins_loaded).
Proof. vm_compute. reflexivity. Qed.

(** X6.  A plugin that raises when it is loaded ends the command: the
    loader and [run] raise that exception in the state the plugin left, the
    entry points after it are not loaded and no application task file is
    imported, whatever the task directory holds or lacks. *)
Theorem plugin_failure_ends_run env args extra app pre p post st st1 e st2 :
  create_app env (args_workdir args) = OK app →
  entry_points env = pre ++ p :: post →
  for_ pre (ep_load env) st = (OK tt, st1) →
  ep_load env p st1 = (Raise e, st2) →
  _load_plugin_tasks env st = (Raise e, st2)
  ∧ run env args extra st = (Raise e, st2)
  ∧ ∃ evs, trace st2 = trace st ++ evs
           ∧ entry_points_loaded evs = pre ++ [p]
           ∧ imports_of evs = [].
Proof.
  intros Happ Heps Hpre Hp.
  assert (_load_plugin_tasks env st = (Raise e, st2)) as Hload.
  { unfold _load_plugin_tasks. apply bind_Raise.
    by rewrite Heps, for_app, Hpre, for_cons, Hp. }
  split_and!; [done| |].
  - unfold run. rewrite (bind_OK _ _ st app st); [|by unfold lift; rewrite Happ].
    by apply bind_Raise.
  - apply load_entry_points_trace in Hpre as (k & Htr & Hk). rewrite (Hk eq_refl) in Htr.
    apply ep_load_trace in Hp.
    exists (EvLoadEntryPoint <$> pre ++ [p]). split_and!.
    + rewrite Hp, Htr, fmap_app. by rewrite <- app_assoc.
    + generalize (pre ++ [p]). intros l. unfold entry_points_loaded.
      induction l as [|x l IH]; [done|]. rewrite fmap_cons. cbn [omap list_omap].
      f_equal. apply IH.
    + generalize (pre ++ [p]). intros l. unfold imports_of.
      induction l as [|x l IH]; [done|]. apply IH.
Qed.

Lemma plugin_failure_ends_run_witness :
  _load_plugin_tasks Faulty.env init
  = (Raise (ImportError "seaplugin.missing"),
     (ep_load Faulty.env "seaplugin.missing" Sample.plugins_loaded).2)
  ∧ run Faulty.env Sample.build_args ["--x"; "5"] init
    = (Raise (ImportError "seaplugin.missing"),
       (ep_load Faulty.env "seaplugin.missing" Sample.plugins_loaded).2)
  ∧ ∃ evs, trace (ep_load Faulty.env "seaplugin.missing" Sample.plugins_loaded).2
           = trace init ++ evs
           ∧ entry_points_loaded evs = ["seaplugin.tasks"] ++ ["seaplugin.missing"]
           ∧ imports_of evs = [].
Proof.
  exact (plugin_failure_ends_run Faulty.env Sample.build_args ["--x"; "5"] _
           ["seaplugin.tasks"] "seaplugin.missing" ["tasks.b_good"] init
           Sample.plugins_loaded _ _ eq_refl eq_refl eq_refl eq_refl).
Defined.

(** ** More on the dispatcher *)

Lemma parse_attempts_app evs1 evs2 :
  parse_attempts (evs1 ++ evs2) = parse_attempts evs1 ++ parse_attempts evs2.
Proof. apply omap_app. Qed.

Lemma parse_attempts_fmap opts : parse_attempts (EvAddArgument <$> opts) = [].
Proof. unfold parse_attempts. induction opts as [|o opts IH]; [done|apply IH]. Qed.

(** X7.  Declaring an option checks nothing: a definition whose descriptors
    [add_argument] will reject is executed and registered like any other.
    The rejection comes out of the dispatch of the task, as the exception of
    [add_argument], before anything is parsed and without the task being
    called. *)
Theorem rejected_option_surfaces_at_dispatch env modname ds body name extra st e :
  DTask name ∈ ds →
  add_result env [] (rev (options_of ds)) = Raise e →
  ∃ st1,
    exec_stmt modname (Def ds body) st = (OK tt, st1)
    ∧ tasks st1 !! name = Some (next_func st)
    ∧ ∃ st2 evs,
        invoke env name extra st1 = (Raise e, st2)
        ∧ trace st2 = trace st1 ++ evs
        ∧ parse_attempts evs = []
        ∧ calls_of evs = [].
Proof.
  intros Hin Hadd.
  destruct (exec_def_spec modname ds body st) as (st1 & Hrun & Hopts & Htasks & _).
  assert (tasks st1 !! name = Some (next_func st)) as Hname.
  { rewrite Htasks. by apply registered_lookup. }
  exists st1. split_and!; try done.
  destruct (invoke_found env name extra st1 _ Hname) as (st2 & _ & _ & _ & Htr & Hinv).
  pose proof (dispatch_outcome_calls env (next_func st)
                (f_body <$> funcs st1 !! next_func st) (opts_of st1 (next_func st)) extra)
    as Hcalls.
  revert Hinv Hcalls. rewrite Hopts. unfold dispatch_outcome. rewrite Hadd. simpl.
  intros Hinv Hcalls.
  eexists _, _. split_and!; [exact Hinv|simpl; by rewrite Htr| |done].
  apply (parse_attempts_fmap _).
Qed.

Lemma rejected_option_surfaces_at_dispatch_witness :
  ∃ st1,
    exec_stmt "tasks.dup" (Def [DTask "dup"; DOption Sample.opt_x; DOption Sample.opt_x]
                             Sample.deploy) init = (OK tt, st1)
    ∧ tasks st1 !! "dup" = Some 0
    ∧ ∃ st2 evs,
        invoke Sample.env "dup" [] st1
        = (Raise (Raised "ArgumentError" "conflicting option string"), st2)
        ∧ trace st2 = trace st1 ++ evs
        ∧ parse_attempts evs = []
        ∧ calls_of evs = [].
Proof.
  apply (rejected_option_surfaces_at_dispatch Sample.env "tasks.dup"
           [DTask "dup"; DOption Sample.opt_x; DOption Sample.opt_x] Sample.deploy
           "dup" [] init).
  - apply list_elem_of_here.
  - reflexivity.
Defined.

Lemma invoke_missing env name extra st :
  tasks st !! name = None → invoke env name extra st = (Raise (KeyError name), st).
Proof.
  intros Hname. unfold invoke. apply bind_Raise.
  unfold TaskManager.getitem. by rewrite Hname.
Qed.

(** The dispatch parses once before it calls, and calls last. *)
Lemma dispatch_outcome_attempts env func body opts extra :
  calls_of (dispatch_outcome env func body opts extra).2 = []
  ∨ ∃ ns, parse_attempts (dispatch_outcome env func body opts extra).2 = [extra]
          ∧ calls_of (dispatch_outcome env func body opts extra).2 = [(func, ns)]
          ∧ last (dispatch_outcome env func body opts extra).2 = Some (EvCall func ns).
Proof.
  pose proof (dispatch_outcome_calls env func body opts extra) as Hcalls.
  revert Hcalls. unfold dispatch_outcome. cbv zeta.
  set (built := EvNewParser "seatask" :: _).
  assert (parse_attempts built = []) as Hbuilt by apply parse_attempts_fmap.
  destruct (add_result env [] opts) as [ds|e]; [|by left].
  destruct (parse_outcome env _ extra) as [ns| |err|e]; cbn [fst snd]; intros Hcalls.
  - right. exists ns. rewrite parse_attempts_app, Hbuilt.
    split_and!; [done|done|].
    change [EvParseArgs extra; EvCall func ns]
      with ([EvParseArgs extra] ++ [EvCall func ns]).
    rewrite app_assoc. apply last_snoc.
  - by left.
  - by left.
  - by left.
Qed.

(** X8.  Whatever the outcome, the dispatcher makes at most one call: of the
    function registered under the name, as its last step and after its one
    call of [parse_args]. *)
Theorem dispatch_calls_at_most_the_task env name extra st r st' :
  invoke env name extra st = (r, st') →
  ∃ evs, trace st' = trace st ++ evs
      ∧ (calls_of evs = []
         ∨ ∃ func ns, tasks st !! name = Some func
                      ∧ calls_of evs = [(func, ns)]
                      ∧ last evs = Some (EvCall func ns)
                      ∧ parse_attempts evs = [extra]).
Proof.
  intros Hrun.
  destruct (tasks st !! name) as [func|] eqn:Hname.
  - destruct (invoke_found env name extra st func Hname)
      as (st1 & _ & _ & _ & Htr & Hinv).
    rewrite Hinv in Hrun. cbv zeta in Hrun. injection Hrun as _ <-.
    eexists. split; [simpl; by rewrite Htr|].
    destruct (dispatch_outcome_attempts env func (f_body <$> funcs st !! func)
                (opts_of st func) extra) as [Hc|(ns & Hp & Hc & Hl)];
      [by left|].
    right. by exists func, ns.
  - rewrite (invoke_missing env name extra st Hname) in Hrun. injection Hrun as _ <-.
    exists []. split; [by rewrite app_nil_r|by left].
Qed.

Lemma dispatch_calls_at_most_the_task_witness :
  ∃ evs,
    trace (invoke Sample.env "build" ["--x"; "5"] Sample.loaded).2
    = trace Sample.loaded ++ evs
    ∧ (calls_of evs = []
       ∨ ∃ func ns, tasks Sample.loaded !! "build" = Some func
                    ∧ calls_of evs = [(func, ns)]
                    ∧ last evs = Some (EvCall func ns)
                    ∧ parse_attempts evs = [["--x"; "5"]]).
Proof.
  exact (dispatch_calls_at_most_the_task Sample.env "build" ["--x"; "5"]
           Sample.loaded _ _ (surjective_pairing _)).
Defined.

(** X10.  A function registered under two names is one task: both names
    refer to the one function object, and a dispatch of either name does the
    same, with the same options. *)
Theorem task_under_two_names env modname ds body name1 name2 extra st :
  DTask name1 ∈ ds →
  DTask name2 ∈ ds →
  ∃ st1,
    exec_stmt modname (Def ds body) st = (OK tt, st1)
    ∧ tasks st1 !! name1 = Some (next_func st)
    ∧ tasks st1 !! name2 = Some (next_func st)
    ∧ invoke env name1 extra st1 = invoke env name2 extra st1.
Proof.
  intros Hin1 Hin2.
  destruct (exec_def_spec modname ds body st) as (st1 & Hrun & _ & Htasks & _).
  assert (tasks st1 !! name1 = Some (next_func st)) as Hname1
    by (rewrite Htasks; by apply registered_lookup).
  assert (tasks st1 !! name2 = Some (next_func st)) as Hname2
    by (rewrite Htasks; by apply registered_lookup).
  exists st1. split_and!; try done.
  unfold invoke. munfold. unfold TaskManager.getitem. by rewrite Hname1, Hname2.
Qed.

Lemma task_under_two_names_witness :
  ∃ st1,
    exec_stmt "tasks.ship" (Def [DTask "ship"; DTask "deliver"; DOption Sample.opt_x]
                              Sample.deploy) init = (OK tt, st1)
    ∧ tasks st1 !! "ship" = Some 0
    ∧ tasks st1 !! "deliver" = Some 0
    ∧ invoke Sample.env "ship" [] st1 = invoke Sample.env "deliver" [] st1.
Proof.
  apply (task_under_two_names Sample.env "tasks.ship"
           [DTask "ship"; DTask "deliver"; DOption Sample.opt_x] Sample.deploy
           "ship" "deliver" [] init).
  - apply list_elem_of_here.
  - apply list_elem_of_further, list_elem_of_here.
Defined.

(** ** Module paths *)

(** X11.  Two task files with different names are imported under different
    module paths. *)
Theorem task_files_have_their_own_module env root m1 m2 :
  is_task_file env root m1 = true →
  is_task_file env root m2 = true →
  m1 ≠ m2 →
  module_path m1 ≠ module_path m2.
Proof.
  intros H1 H2 Hne Hpath. apply Hne.
  apply is_task_file_spec in H1 as (_ & (s1 & -> & Hp1) & _).
  apply is_task_file_spec in H2 as (_ & (s2 & -> & Hp2) & _).
  rewrite Hp1, Hp2 in Hpath. apply string_app_inj_l in Hpath. by subst.
Qed.

Lemma task_files_have_their_own_module_witness :
  module_path "build.py" ≠ module_path "deploy.py".
Proof.
  exact (task_files_have_their_own_module Sample.env "/srv/app/tasks"
           "build.py" "deploy.py" eq_refl eq_refl ltac:(discriminate)).
Defined.

(** ** [NewCmd] *)

Lemma gbind_OK {A B} (m : NewCmd.G A) (k : A → NewCmd.G B) h a h' :
  m h = (OK a, h') → (m ≫= k) h = k a h'.
Proof. intros H. unfold mbind, NewCmd.G_bind, NewCmd.gbind. by rewrite H. Qed.

Lemma gbind_Raise {A B} (m : NewCmd.G A) (k : A → NewCmd.G B) h e h' :
  m h = (Raise e, h') → (m ≫= k) h = (Raise e, h').
Proof. intros H. unfold mbind, NewCmd.G_bind, NewCmd.gbind. by rewrite H. Qed.

Lemma add_files_spec tmplpath files skipped :
  NewCmd.add_files tmplpath files skipped
  = skipped ∪ list_to_set (OsPath.join tmplpath <$> files).
Proof.
  revert skipped. induction files as [|f files IH]; intros skipped; simpl.
  - by rewrite (right_id_L ∅ (∪)).
  - rewrite IH. by rewrite (comm_L (∪) {[_]} skipped), <- (assoc_L (∪)).
Qed.

Lemma gfor_app {A} (xs ys : list A) (body : A → NewCmd.G unit) h :
  NewCmd.gfor (xs ++ ys) body h
  = match NewCmd.gfor xs body h with
    | (OK _, h') => NewCmd.gfor ys body h'
    | (Raise e, h') => (Raise e, h')
    end.
Proof.
  revert h. induction xs as [|x xs IH]; intros h; simpl; [done|].
  unfold mbind, NewCmd.G_bind, NewCmd.gbind.
  destruct (body x h) as [[[]|e] h1]; [apply IH|done].
Qed.

Lemma perform_without skip t op h :
  NewCmd.perform (NewCmd.without skip t) op h = NewCmd.perform t op h.
Proof. done. Qed.

Lemma gen_file_without t path skip ctx dirpath fn h :
  OsPath.join dirpath fn ∉ skip →
  NewCmd.gen_file (NewCmd.without skip t) path ∅ ctx dirpath fn h
  = NewCmd.gen_file t path skip ctx dirpath fn h.
Proof.
  intros Hnot. unfold NewCmd.gen_file.
  rewrite (decide_False (P := _ ∈ skip)) by done.
  rewrite decide_False by apply not_elem_of_empty.
  done.
Qed.

Lemma gen_files_without t path skip ctx dirpath fns h :
  NewCmd.gfor (List.filter (λ fn, bool_decide (OsPath.join dirpath fn ∉ skip)) fns)
    (NewCmd.gen_file (NewCmd.without skip t) path ∅ ctx dirpath) h
  = NewCmd.gfor fns (NewCmd.gen_file t path skip ctx dirpath) h.
Proof.
  revert h. induction fns as [|fn fns IH]; intros h; simpl; [done|].
  case_bool_decide as Hin; simpl.
  - unfold mbind, NewCmd.G_bind, NewCmd.gbind.
    rewrite gen_file_without by done.
    destruct (NewCmd.gen_file t path skip ctx dirpath fn h) as [[[]|e] h1]; [apply IH|done].
  - rewrite IH. unfold mbind, NewCmd.G_bind, NewCmd.gbind.
    unfold NewCmd.gen_file at 2.
    rewrite decide_True; [done|].
    by destruct (decide (OsPath.join dirpath fn ∈ skip)).
Qed.

(** X13.  Skipping files is leaving them out: [_gen_project] with a skip
    set does, operation for operation and with the same outcome, what it
    does with nothing to skip on the template tree without those files. *)
Theorem skipping_is_leaving_out t path skip ctx h :
  NewCmd._gen_project t path skip ctx h
  = NewCmd._gen_project (NewCmd.without skip t) path ∅ ctx h.
Proof.
  unfold NewCmd._gen_project. simpl.
  generalize (walk t). intros dirs. revert h.
  induction dirs as [|[dirpath fns] dirs IH]; intros h; simpl; [done|].
  unfold mbind, NewCmd.G_bind, NewCmd.gbind.
  rewrite gen_files_without.
  destruct (NewCmd.gfor fns _ h) as [[[]|e] h1]; [apply IH|done].
Qed.

Lemma skip_files_flags t args g o c :
  args !! "skip_git" = Some g →
  args !! "skip_orator" = Some o →
  args !! "skip_consul" = Some c →
  NewCmd._build_skip_files t args
  = OK ((if NewCmd.truthy g
         then {[OsPath.join (NewCmd.TMPLPATH t) "gitignore"]} else ∅)
        ∪ (if NewCmd.truthy o
           then {[OsPath.join (NewCmd.TMPLPATH t) "configs/development/orator.tpl";
                  OsPath.join (NewCmd.TMPLPATH t) "configs/testing/orator.tpl"]}
           else ∅)).
Proof.
  intros Hg Ho Hc. unfold NewCmd._build_skip_files, NewCmd.IGNORED_FILES.
  cbn [NewCmd.skip_loop]. unfold NewCmd.getattr.
  change ("skip_" +:+ "git") with "skip_git".
  change ("skip_" +:+ "orator") with "skip_orator".
  change ("skip_" +:+ "consul") with "skip_consul".
  rewrite Hg, Ho, Hc. f_equal.
  rewrite !add_files_spec.
  apply leibniz_equiv.
  intros x.
  destruct (NewCmd.truthy g), (NewCmd.truthy o), (NewCmd.truthy c);
    cbn [fmap list_fmap list_to_set foldr];
    rewrite ?elem_of_union, ?elem_of_singleton, ?elem_of_empty; tauto.
Qed.

Lemma perform_spec t op h :
  NewCmd.perform t op h = (OK tt, h ++ [op])
  ∨ ∃ e, NewCmd.perform t op h = (Raise e, h).
Proof. unfold NewCmd.perform. destruct (os_error t h op); eauto. Qed.

Lemma perform_OK t op h r h' :
  NewCmd.perform t op h = (OK r, h') → os_error t h op = None ∧ h' = h ++ [op].
Proof.
  unfold NewCmd.perform. destruct (os_error t h op); [done|].
  by intros [= _ <-].
Qed.

Lemma printed_app a b : NewCmd.printed (a ++ b) = NewCmd.printed a ++ NewCmd.printed b.
Proof. apply omap_app. Qed.

(** What one file adds: nothing if it is skipped; else its operations, with
    its line printed last if they all went well and no line otherwise. *)
Lemma gen_file_spec t path skip ctx dirpath fn h r h' :
  NewCmd.gen_file t path skip ctx dirpath fn h = (r, h') →
  ∃ ops, h' = h ++ ops ∧
    if bool_decide (OsPath.join dirpath fn ∈ skip)
    then ops = [] ∧ r = OK tt
    else (r = OK tt ∧ NewCmd.printed ops = [NewCmd.created_line t path (OsPath.join dirpath fn)])
         ∨ ((∃ e, r = Raise e) ∧ NewCmd.printed ops = []).
Proof.
  unfold NewCmd.gen_file. case_bool_decide as Hin.
  - rewrite decide_True by done. intros [= <- <-]. exists []. by rewrite app_nil_r.
  - rewrite decide_False by done.
    set (src := OsPath.join dirpath fn).
    set (relfn := relpath t src (NewCmd.TMPLPATH t)).
    set (dst := OsPath.join path relfn).
    unfold mbind, NewCmd.G_bind, NewCmd.gbind.
    destruct (perform_spec t (Makedirs (PosixPath.dirname dst)) h) as [-> | [e ->]];
      [|intros [= <- <-]; exists []; rewrite app_nil_r; eauto].
    set (h1 := h ++ [Makedirs (PosixPath.dirname dst)]).
    match goal with
    | |- (let (_, _) := ?m h1 in _) = _ → _ =>
        assert (∃ r2 ops2, m h1 = (r2, h1 ++ ops2) ∧ NewCmd.printed ops2 = [])
          as (r2 & ops2 & -> & Hp2)
    end.
    { destruct (String.eqb _ _); cbv beta.
      - destruct (perform_spec t (OpenWrite (PosixPath.splitext dst).1) h1) as [-> | [e ->]];
          [|exists (Raise e), []; by rewrite app_nil_r].
        unfold NewCmd.glift.
        destruct (render t relfn ctx) as [text|e];
          [|exists (Raise e), [OpenWrite (PosixPath.splitext dst).1]; done].
        destruct (perform_spec t (WriteText (PosixPath.splitext dst).1 text)
                    (h1 ++ [OpenWrite (PosixPath.splitext dst).1])) as [-> | [e ->]].
        + exists (OK tt), [OpenWrite (PosixPath.splitext dst).1;
                           WriteText (PosixPath.splitext dst).1 text].
          by rewrite <- app_assoc.
        + exists (Raise e), [OpenWrite (PosixPath.splitext dst).1]. done.
      - destruct (perform_spec t (CopyFile src dst) h1) as [-> | [e ->]].
        + by exists (OK tt), [CopyFile src dst].
        + exists (Raise e), []. by rewrite app_nil_r. }
    destruct r2 as [[]|e].
    + destruct (perform_spec t (Print ("created: " +:+ dst)) (h1 ++ ops2)) as [-> | [e ->]];
        intros [= <- <-].
      * exists (Makedirs (PosixPath.dirname dst) :: ops2 ++ [Print ("created: " +:+ dst)]).
        split; [unfold h1; by rewrite <- !app_assoc|].
        left. split; [done|].
        change (NewCmd.printed (?x :: ?l)) with (NewCmd.printed l).
        rewrite printed_app, Hp2. done.
      * exists (Makedirs (PosixPath.dirname dst) :: ops2).
        split; [unfold h1; by rewrite <- !app_assoc|].
        right. split; [eauto|]. exact Hp2.
    + intros [= <- <-].
      exists (Makedirs (PosixPath.dirname dst) :: ops2).
      split; [unfold h1; by rewrite <- !app_assoc|].
      right. split; [eauto|]. exact Hp2.
Qed.

Lemma gen_files_spec t path skip ctx dirpath fns h r h' :
  NewCmd.gfor fns (NewCmd.gen_file t path skip ctx dirpath) h = (r, h') →
  ∃ ops k, h' = h ++ ops
    ∧ NewCmd.printed ops
      = take k (NewCmd.created_line t path
                  <$> List.filter (λ src, bool_decide (src ∉ skip))
                        (OsPath.join dirpath <$> fns))
    ∧ (r = OK tt →
       NewCmd.printed ops
       = NewCmd.created_line t path
           <$> List.filter (λ src, bool_decide (src ∉ skip))
                 (OsPath.join dirpath <$> fns)).
Proof.
  revert h. induction fns as [|fn fns IH]; intros h; simpl.
  - intros [= <- <-]. exists [], 0. by rewrite app_nil_r.
  - unfold mbind, NewCmd.G_bind, NewCmd.gbind.
    destruct (NewCmd.gen_file t path skip ctx dirpath fn h) as [r1 h1] eqn:Hfile.
    apply gen_file_spec in Hfile as (ops1 & -> & Hcase).
    case_bool_decide as Hin.
    + destruct Hcase as [-> ->]. rewrite app_nil_r.
      rewrite bool_decide_false by (by intros ?). simpl. apply IH.
    + rewrite bool_decide_true by done. simpl.
      destruct Hcase as [[-> Hp1] | [[e ->] Hp1]].
      * intros Hrest. apply IH in Hrest as (ops & k & -> & Hp & Hall).
        exists (ops1 ++ ops), (S k). rewrite app_assoc, printed_app, Hp1. simpl.
        split_and!; [done|by rewrite Hp|intros Hr; by rewrite (Hall Hr)].
      * intros [= <- <-]. exists ops1, 0. by rewrite Hp1.
Qed.

Lemma take_min_length {A} k (l : list A) : take k l = take (k `min` length l) l.
Proof.
  destruct (decide (k ≤ length l)%nat).
  - by rewrite Nat.min_l.
  - rewrite Nat.min_r by lia. by rewrite !take_ge by lia.
Qed.

Lemma take_app_full {A} (l1 l2 : list A) k :
  take (length l1 + k) (l1 ++ l2) = l1 ++ take k l2.
Proof. by rewrite take_app_add. Qed.

(** X14.  Whatever the outcome of [_gen_project], the lines it prints are
    the first ones of the [created:] lines of the source files that are
    not skipped, in the order of the walk, each naming the destination of
    its file; when it returns, all of them are printed. *)
Theorem created_lines_name_the_files t path skip ctx h r h' :
  NewCmd._gen_project t path skip ctx h = (r, h') →
  ∃ ops k, h' = h ++ ops
    ∧ NewCmd.printed ops
      = take k (NewCmd.created_line t path
                  <$> List.filter (λ src, bool_decide (src ∉ skip)) (NewCmd.sources t))
    ∧ (r = OK tt →
       NewCmd.printed ops
       = NewCmd.created_line t path
           <$> List.filter (λ src, bool_decide (src ∉ skip)) (NewCmd.sources t)).
Proof.
  unfold NewCmd._gen_project, NewCmd.sources.
  generalize (walk t). intros dirs. revert h.
  induction dirs as [|[dirpath fns] dirs IH]; intros h; simpl.
  - intros [= <- <-]. exists [], 0. by rewrite app_nil_r.
  - unfold mbind, NewCmd.G_bind, NewCmd.gbind.
    destruct (NewCmd.gfor fns _ h) as [r1 h1] eqn:Hdir.
    apply gen_files_spec in Hdir as (ops1 & k1 & -> & Hp1 & Hall1).
    rewrite List.filter_app, fmap_app.
    destruct r1 as [[]|e].
    + intros Hrest. apply IH in Hrest as (ops & k & -> & Hp & Hall).
      exists (ops1 ++ ops),
        (length (NewCmd.created_line t path
                   <$> List.filter (λ src, bool_decide (src ∉ skip))
                         (OsPath.join dirpath <$> fns)) + k).
      rewrite app_assoc, printed_app, take_app_full, (Hall1 eq_refl).
      split_and!; [done|by rewrite Hp|intros Hr; by rewrite (Hall Hr)].
    + intros [= <- <-].
      exists ops1,
        (k1 `min` length (NewCmd.created_line t path
                   <$> List.filter (λ src, bool_decide (src ∉ skip))
                         (OsPath.join dirpath <$> fns))).
      split_and!; [done| |done].
      rewrite Hp1. rewrite take_app_le by lia.
      apply take_min_length.
Qed.

(** *** Paths *)

Lemma rfind_lt c s k : PosixPath.rfind c s = Some k → (k < String.length s)%nat.
Proof.
  revert k. induction s as [|d s IH]; intros k; simpl; [done|].
  destruct (PosixPath.rfind c s) as [j|].
  - intros [= <-]. specialize (IH j eq_refl). lia.
  - destruct (Ascii.eqb d c); [|done]. intros [= <-]. lia.
Qed.

Lemma take_drop_string k s :
  (k ≤ String.length s)%nat → PyStr.take k s +:+ PyStr.drop k s = s.
Proof.
  intros Hk. unfold PyStr.take, PyStr.drop. rewrite Nat.min_l by done.
  symmetry. by apply substring_split.
Qed.

Lemma append_empty_r s : s +:+ "" = s.
Proof.
  induction s as [|c s IH]; [done|].
  change (String c (s +:+ "") = String c s). by rewrite IH.
Qed.

Lemma append_assoc a b c : (a +:+ b) +:+ c = a +:+ (b +:+ c).
Proof.
  induction a as [|d a IH]; [done|].
  change (String d ((a +:+ b) +:+ c) = String d (a +:+ (b +:+ c))). by rewrite IH.
Qed.

(** [splitext] cuts the path in two. *)
Lemma splitext_join p : (PosixPath.splitext p).1 +:+ (PosixPath.splitext p).2 = p.
Proof.
  unfold PosixPath.splitext.
  destruct (PosixPath.rfind "." p) as [dot|] eqn:Hdot; simpl.
  - destruct (_ && _); simpl.
    + apply take_drop_string. apply rfind_lt in Hdot. lia.
    + apply append_empty_r.
  - apply append_empty_r.
Qed.

Lemma rfind_snoc c s : PosixPath.rfind c (s +:+ String c "") = Some (String.length s).
Proof.
  induction s as [|d s IH]; simpl.
  - by rewrite Ascii.eqb_refl.
  - by rewrite IH.
Qed.

Lemma substring_none n s : substring n 0 s = "".
Proof. revert n. induction s; intros [|n]; simpl; auto. Qed.

(** A path that ends in a slash has an empty last component. *)
Lemma basename_trailing_sep s : PosixPath.basename (s +:+ "/") = "".
Proof.
  unfold PosixPath.basename, PosixPath.after_sep, PyStr.drop.
  rewrite rfind_snoc, string_length_append. simpl.
  replace (String.length s + 1 - S (String.length s))%nat with 0%nat by lia.
  apply substring_none.
Qed.

Lemma startswith_sep_app a b :
  b ≠ "" → PyStr.startswith (b +:+ a) "/" = PyStr.startswith b "/".
Proof. destruct b; [done|]. intros _. simpl. done. Qed.

Lemma join_trailing_sep a b :
  PyStr.endswith b "/" = true → PyStr.endswith (OsPath.join a b) "/" = true.
Proof.
  rewrite !endswith_spec. intros [stem ->]. unfold OsPath.join.
  destruct (PyStr.startswith _ _); [by exists stem|].
  destruct (_ || _).
  - exists (a +:+ stem). by rewrite append_assoc.
  - exists (a +:+ "/" +:+ stem). by rewrite !append_assoc.
Qed.

(** X15.  When a file that is not skipped has a destination whose
    extension, as [os.path.splitext] gives it, is [.tmpl], and the file is
    generated, then the destination is the file written plus [.tmpl]: the
    directory of the destination is made, the file without the extension is
    opened and gets the rendered text, and the line printed names the
    destination with the extension, not the file written.  (A file named
    [.tmpl] has no extension for [splitext] and is not covered.) *)
Theorem template_is_written_without_its_suffix t path skip ctx dirpath fn h h' :
  let src := OsPath.join dirpath fn in
  let relfn := relpath t src (NewCmd.TMPLPATH t) in
  let dst := OsPath.join path relfn in
  src ∉ skip →
  (PosixPath.splitext dst).2 = ".tmpl" →
  NewCmd.gen_file t path skip ctx dirpath fn h = (OK tt, h') →
  ∃ target text,
    dst = target +:+ ".tmpl"
    ∧ render t relfn ctx = OK text
    ∧ h' = h ++ [Makedirs (PosixPath.dirname dst);
                 OpenWrite target;
                 WriteText target text;
                 Print ("created: " +:+ target +:+ ".tmpl")].
Proof.
  intros src relfn dst Hskip Hext. unfold NewCmd.gen_file.
  fold src. rewrite decide_False by done. fold relfn. fold dst.
  rewrite Hext. change (".tmpl" =? ".tmpl") with true. cbv iota.
  pose proof (splitext_join dst) as Hjoin. rewrite Hext in Hjoin.
  set (target := (PosixPath.splitext dst).1) in *.
  unfold mbind, NewCmd.G_bind, NewCmd.gbind, NewCmd.glift.
  destruct (NewCmd.perform t (Makedirs _) h) as [[[]|e] h1] eqn:H1; [|done].
  apply perform_OK in H1 as [_ ->].
  destruct (NewCmd.perform t (OpenWrite _) _) as [[[]|e] h2] eqn:H2; [|done].
  apply perform_OK in H2 as [_ ->].
  destruct (render t relfn ctx) as [text|e]; [|done].
  destruct (NewCmd.perform t (WriteText _ _) _) as [[[]|e] h3] eqn:H3; [|done].
  apply perform_OK in H3 as [_ ->].
  intros H4. apply perform_OK in H4 as [_ ->].
  exists target, text. split_and!; [done|done|].
  rewrite <- !app_assoc. simpl. by rewrite <- Hjoin.
Qed.

(** X16.  When the first file of the walk is a template that fails to
    render, [_gen_project] raises the exception of the template engine
    after it has made the directory and opened the target for writing:
    nothing is written to the target, no line is printed and no other file
    is generated. *)
Theorem failed_render_leaves_an_empty_file t path skip ctx dirpath fn rest dirs h e :
  let src := OsPath.join dirpath fn in
  let relfn := relpath t src (NewCmd.TMPLPATH t) in
  let dst := OsPath.join path relfn in
  walk t = (dirpath, fn :: rest) :: dirs →
  src ∉ skip →
  (PosixPath.splitext dst).2 = ".tmpl" →
  os_error t h (Makedirs (PosixPath.dirname dst)) = None →
  os_error t (h ++ [Makedirs (PosixPath.dirname dst)])
    (OpenWrite (PosixPath.splitext dst).1) = None →
  render t relfn ctx = Raise e →
  NewCmd._gen_project t path skip ctx h
  = (Raise e, h ++ [Makedirs (PosixPath.dirname dst);
                    OpenWrite (PosixPath.splitext dst).1]).
Proof.
  intros src relfn dst Hwalk Hskip Hext Hmk Hopen Hrender.
  unfold NewCmd._gen_project. rewrite Hwalk. simpl.
  unfold NewCmd.gen_file. fold src. rewrite decide_False by done.
  fold relfn. fold dst. rewrite Hext. change (".tmpl" =? ".tmpl") with true. cbv iota.
  unfold mbind, NewCmd.G_bind, NewCmd.gbind, NewCmd.glift, NewCmd.perform.
  rewrite Hmk, Hopen, Hrender. by rewrite <- app_assoc.
Qed.

(** X17.  [run] of [NewCmd] with no argument left over generates under
    the working directory joined with the project argument, skips what the
    flags say, and renders with the namespace where [project] is the last
    component of that path; with an argument left over it raises
    [ValueError] and does nothing. *)
Theorem new_generates_under_the_working_directory t cwd args p g o c h :
  args !! "project" = Some (VStr p) →
  args !! "skip_git" = Some g →
  args !! "skip_orator" = Some o →
  args !! "skip_consul" = Some c →
  NewCmd.run t cwd args [] h
  = NewCmd._gen_project t (OsPath.join cwd p)
      ((if NewCmd.truthy g
        then {[OsPath.join (NewCmd.TMPLPATH t) "gitignore"]} else ∅)
       ∪ (if NewCmd.truthy o
          then {[OsPath.join (NewCmd.TMPLPATH t) "configs/development/orator.tpl";
                 OsPath.join (NewCmd.TMPLPATH t) "configs/testing/orator.tpl"]}
          else ∅))
      (<["project" := VStr (PosixPath.basename (OsPath.join cwd p))]> args) h
  ∧ ∀ x extra, NewCmd.run t cwd args (x :: extra) h = (Raise (Raised "ValueError" ""), h).
Proof.
  intros Hp Hg Ho Hc. split; [|done].
  unfold NewCmd.run, NewCmd.getattr. rewrite Hp.
  unfold mbind, NewCmd.G_bind, NewCmd.gbind, NewCmd.glift.
  by rewrite (skip_files_flags t _ g o c) by (by rewrite lookup_insert_ne).
Qed.

Lemma new_generates_under_the_working_directory_witness :
  NewCmd.run NewSample.templates "/home/u" NewSample.args [] []
  = NewCmd._gen_project NewSample.templates "/home/u/demo"
      {["/pkg/sea/template/gitignore"]}
      (<["project" := VStr "demo"]> NewSample.args) []
  ∧ ∀ x extra,
      NewCmd.run NewSample.templates "/home/u" NewSample.args (x :: extra) []
      = (Raise (Raised "ValueError" ""), []).
Proof.
  exact (new_generates_under_the_working_directory NewSample.templates "/home/u"
           NewSample.args "demo" (VBool true) (VBool false) (VBool true) []
           eq_refl eq_refl eq_refl eq_refl).
Defined.

(** X18.  A project argument that ends in a slash gives the templates an
    empty project name: [run] generates under the path as given, and the
    context holds the empty string for [project]. *)
Theorem trailing_slash_empties_the_project_name t cwd args p skip h :
  args !! "project" = Some (VStr p) →
  PyStr.endswith p "/" = true →
  NewCmd._build_skip_files t (<["project" := VStr ""]> args) = OK skip →
  NewCmd.run t cwd args [] h
  = NewCmd._gen_project t (OsPath.join cwd p) skip (<["project" := VStr ""]> args) h.
Proof.
  intros Hp Hend Hskip.
  unfold NewCmd.run, NewCmd.getattr. rewrite Hp.
  unfold mbind, NewCmd.G_bind, NewCmd.gbind, NewCmd.glift.
  apply (join_trailing_sep cwd) in Hend. apply endswith_spec in Hend as [stem ->].
  rewrite basename_trailing_sep. by rewrite Hskip.
Qed.

Lemma trailing_slash_empties_the_project_name_witness :
  NewCmd.run NewSample.templates "/home/u" NewSample.args_slash [] []
  = NewCmd._gen_project NewSample.templates "/home/u/demo/"
      {["/pkg/sea/template/gitignore"]}
      (<["project" := VStr ""]> NewSample.args_slash) [].
Proof.
  exact (trailing_slash_empties_the_project_name NewSample.templates "/home/u"
           NewSample.args_slash "demo/" {["/pkg/sea/template/gitignore"]} []
           eq_refl eq_refl eq_refl).
Defined.

(** X12.  [_build_skip_files] succeeds on a namespace that carries the three
    flags, and a file is in its result exactly when it is the [gitignore]
    of the template directory and [skip_git] is true, or one of the two
    [orator.tpl] files and [skip_orator] is true: [skip_consul] is read
    and skips nothing. *)
Theorem skip_files_follow_the_flags t args g o c :
  args !! "skip_git" = Some g →
  args !! "skip_orator" = Some o →
  args !! "skip_consul" = Some c →
  ∃ skip, NewCmd._build_skip_files t args = OK skip
    ∧ ∀ f, f ∈ skip ↔
        (NewCmd.truthy g = true ∧ f = OsPath.join (NewCmd.TMPLPATH t) "gitignore")
        ∨ (NewCmd.truthy o = true
           ∧ (f = OsPath.join (NewCmd.TMPLPATH t) "configs/development/orator.tpl"
              ∨ f = OsPath.join (NewCmd.TMPLPATH t) "configs/testing/orator.tpl")).
Proof.
  intros Hg Ho Hc. eexists. split; [by apply (skip_files_flags t args g o c)|].
  intros f. destruct (NewCmd.truthy g), (NewCmd.truthy o);
    rewrite ?elem_of_union, ?elem_of_singleton, ?elem_of_empty; intuition congruence.
Qed.

Lemma skip_files_follow_the_flags_witness :
  ∃ skip, NewCmd._build_skip_files NewSample.templates NewSample.args = OK skip
    ∧ ∀ f, f ∈ skip ↔
        (true = true ∧ f = "/pkg/sea/template/gitignore")
        ∨ (false = true
           ∧ (f = "/pkg/sea/template/configs/development/orator.tpl"
              ∨ f = "/pkg/sea/template/configs/testing/orator.tpl")).
Proof.
  exact (skip_files_follow_the_flags NewSample.templates NewSample.args
           (VBool true) (VBool false) (VBool true) eq_refl eq_refl eq_refl).
Defined.

Lemma created_lines_name_the_files_witness :
  ∃ ops k,
    (NewCmd._gen_project NewSample.templates "/home/u/demo"
       {["/pkg/sea/template/gitignore"]} NewSample.args []).2 = [] ++ ops
    ∧ NewCmd.printed ops
      = take k ["created: /home/u/demo/README.md.tmpl";
                "created: /home/u/demo/configs/development/orator.tpl";
                "created: /home/u/demo/configs/development/app.py"]
    ∧ ((NewCmd._gen_project NewSample.templates "/home/u/demo"
          {["/pkg/sea/template/gitignore"]} NewSample.args []).1 = OK tt →
       NewCmd.printed ops
       = ["created: /home/u/demo/README.md.tmpl";
          "created: /home/u/demo/configs/development/orator.tpl";
          "created: /home/u/demo/configs/development/app.py"]).
Proof.
  exact (created_lines_name_the_files NewSample.templates "/home/u/demo"
           {["/pkg/sea/template/gitignore"]} NewSample.args [] _ _
           (surjective_pairing _)).
Defined.

Lemma template_is_written_without_its_suffix_witness :
  ∃ target text,
    "/home/u/demo/README.md.tmpl" = target +:+ ".tmpl"
    ∧ render NewSample.templates "README.md.tmpl" NewSample.args = OK text
    ∧ [Makedirs "/home/u/demo"; OpenWrite "/home/u/demo/README.md";
       WriteText "/home/u/demo/README.md" "# demo";
       Print "created: /home/u/demo/README.md.tmpl"]
      = [] ++ [Makedirs "/home/u/demo"; OpenWrite target; WriteText target text;
               Print ("created: " +:+ target +:+ ".tmpl")].
Proof.
  exact (template_is_written_without_its_suffix NewSample.templates "/home/u/demo" ∅
           NewSample.args "/pkg/sea/template" "README.md.tmpl" [] _
           (not_elem_of_empty _) eq_refl eq_refl).
Defined.

Lemma failed_render_leaves_an_empty_file_witness :
  NewCmd._gen_project NewSample.templates "/home/u/demo"
    {["/pkg/sea/template/gitignore"]} ∅ []
  = (Raise (Raised "UndefinedError" "project"),
     [Makedirs "/home/u/demo"; OpenWrite "/home/u/demo/README.md"]).
Proof.
  exact (failed_render_leaves_an_empty_file
           (NewCmd.without {["/pkg/sea/template/gitignore"]} NewSample.templates)
           "/home/u/demo" ∅ ∅ "/pkg/sea/template" "README.md.tmpl" [] _ [] _
           eq_refl (not_elem_of_empty _) eq_refl eq_refl eq_refl eq_refl).
Defined.
